(** * Grammar model and nullable analysis of bongo

    A shallow embedding of [src/bongo/src/grammar.rs] (the grammar data
    model, its validation and the borrowed production views) and of
    [src/bongo/src/grammar/nullables.rs] (the two-pass nullable engine).

    The symbol family [ElementTypes] is instantiated with [nat] for
    terminals, nonterminals, action keys, action values and binding names:
    every algorithm below only uses equality and ordering on them.
    A [BTreeMap<K, V>] is an association list kept sorted by key, a
    [BTreeSet<K>] a sorted list without duplicates. *)

From Stdlib Require Import List Arith Lia Bool Permutation.
Import ListNotations.

(* ------------------------------------------------------------------ *)
(** ** Symbol family *)

Definition Term := nat.
Definition NonTerm := nat.
Definition ActionKey := nat.
Definition ActionValue := nat.
Definition Name := nat.

(** [enum Element { Term(E::Term), NonTerm(E::NonTerm) }] *)
Inductive Element : Type :=
| ETerm (t : Term)
| ENonTerm (nt : NonTerm).

Definition as_nonterm (e : Element) : option NonTerm :=
  match e with
  | ENonTerm nt => Some nt
  | ETerm _ => None
  end.

Record ProductionElement : Type := mkProductionElement {
  identifier : option Name;
  element : Element
}.

Record Production : Type := mkProduction {
  action_key : ActionKey;
  elements : list ProductionElement
}.

(** [Production::elements_iter] *)
Definition elements_iter (p : Production) : list Element :=
  map element (elements p).

Record Rule : Type := mkRule {
  head : NonTerm;
  prods : list Production
}.

(** [struct ProdKey { head, action_key }] *)
Record ProdKey : Type := mkProdKey {
  pk_head : NonTerm;
  pk_action_key : ActionKey
}.

(* ------------------------------------------------------------------ *)
(** ** [BTreeMap] and [BTreeSet] over [nat] keys *)

Section Maps.
Context {V : Type}.

Fixpoint map_get (k : nat) (m : list (nat * V)) : option V :=
  match m with
  | [] => None
  | (k', v) :: m' => if Nat.eqb k k' then Some v else map_get k m'
  end.

Definition map_contains (k : nat) (m : list (nat * V)) : bool :=
  match map_get k m with Some _ => true | None => false end.

(** [BTreeMap::insert]: replaces the value of an existing key. *)
Fixpoint map_insert (k : nat) (v : V) (m : list (nat * V)) : list (nat * V) :=
  match m with
  | [] => [(k, v)]
  | (k', v') :: m' =>
      match Nat.compare k k' with
      | Lt => (k, v) :: m
      | Eq => (k, v) :: m'
      | Gt => (k', v') :: map_insert k v m'
      end
  end.

Definition map_keys (m : list (nat * V)) : list nat := map fst m.

End Maps.

(** [BTreeSet<nat>::insert]: returns whether the value was new. *)
Fixpoint set_insert (x : nat) (s : list nat) : bool * list nat :=
  match s with
  | [] => (true, [x])
  | y :: s' =>
      match Nat.compare x y with
      | Lt => (true, x :: s)
      | Eq => (false, s)
      | Gt => let '(b, s'') := set_insert x s' in (b, y :: s'')
      end
  end.

(** [collect::<BTreeSet<_>>()] *)
Definition set_of_list (l : list nat) : list nat :=
  fold_left (fun s x => snd (set_insert x s)) l [].

Definition set_mem (x : nat) (s : list nat) : bool := existsb (Nat.eqb x) s.

(** [BTreeSet::remove] *)
Definition set_remove (x : nat) (s : list nat) : list nat :=
  filter (fun y => negb (Nat.eqb y x)) s.

(* ------------------------------------------------------------------ *)
(** ** [Grammar] and its validation *)

Record Grammar : Type := mkGrammar {
  start_symbol : NonTerm;
  rule_set : list (NonTerm * Rule);
  action_map : list (ActionKey * ActionValue)
}.

Record GrammarErrors : Type := mkGrammarErrors {
  unreachable_nonterms_err : list NonTerm;
  nonterms_without_rules_err : list NonTerm;
  rules_without_prods_err : list NonTerm
}.

(** [Grammar::get_rule] *)
Definition get_rule (g : Grammar) (nt : NonTerm) : option Rule :=
  map_get nt (rule_set g).

(** [Grammar::get_elements]: every element of every production, rules
    taken in key order. *)
Definition get_elements (g : Grammar) : list Element :=
  flat_map (fun '(_, r) => flat_map elements_iter (prods r)) (rule_set g).

(** [Grammar::get_nonterminals]: [filter_map(as_nonterm)] over the
    elements; rule heads are not elements. *)
Definition get_nonterminals (g : Grammar) : list NonTerm :=
  flat_map (fun e => match as_nonterm e with Some nt => [nt] | None => [] end)
    (get_elements g).

Definition nonterminals_without_rules (g : Grammar) : list NonTerm :=
  set_of_list
    (filter (fun nt => negb (map_contains nt (rule_set g)))
       (get_nonterminals g)).

Definition rules_without_prods (g : Grammar) : list NonTerm :=
  set_of_list
    (map (fun '(_, r) => head r)
       (filter (fun '(_, r) => match prods r with [] => true | _ => false end)
          (rule_set g))).

(** The successors used by [reachable_nonterms]: the nonterminals of the
    right-hand sides of the rule of [nt], none if [nt] has no rule. *)
Definition rule_successors (g : Grammar) (nt : NonTerm) : list NonTerm :=
  match get_rule g nt with
  | Some r =>
      set_of_list
        (flat_map (fun p => flat_map (fun e => match as_nonterm e with
                                               | Some n => [n] | None => [] end)
                              (elements_iter p)) (prods r))
  | None => []
  end.

(** Modelled from the spec: [crate::utils::breadth_first_search] (its
    source is not part of src/).  The spec describes the reachable set as
    every nonterminal reached by repeatedly expanding right-hand sides
    starting from the roots; [fuel] bounds the number of rounds. *)
Fixpoint breadth_first_search (fuel : nat) (succ : nat -> list nat)
    (frontier visited : list nat) : list nat :=
  match fuel with
  | O => visited
  | S fuel' =>
      match frontier with
      | [] => visited
      | _ =>
          let next := filter (fun n => negb (set_mem n visited))
                        (set_of_list (flat_map succ frontier)) in
          breadth_first_search fuel' succ next
            (fold_left (fun s x => snd (set_insert x s)) next visited)
      end
  end.

Definition reachable_nonterms (g : Grammar) : list NonTerm :=
  breadth_first_search (S (S (length (get_nonterminals g))))
    (rule_successors g) [start_symbol g] [start_symbol g].

Definition unreachable_nonterms (g : Grammar) : list NonTerm :=
  let reachable := reachable_nonterms g in
  set_of_list
    (filter (fun nt => negb (set_mem nt reachable)) (get_nonterminals g)).

(** [GrammarErrors::into_result] *)
Definition into_result (e : GrammarErrors) : option GrammarErrors :=
  match unreachable_nonterms_err e, nonterms_without_rules_err e,
        rules_without_prods_err e with
  | [], [], [] => None
  | _, _, _ => Some e
  end.

(** [Grammar::check_grammar]: [None] is [Ok(())], [Some e] is [Err(e)]. *)
Definition check_grammar (g : Grammar) : option GrammarErrors :=
  into_result
    {| unreachable_nonterms_err := unreachable_nonterms g;
       nonterms_without_rules_err := nonterminals_without_rules g;
       rules_without_prods_err := rules_without_prods g |}.

(** [Grammar::new]: the rules are collected into a [BTreeMap] keyed by
    their head (a later rule with the same head replaces an earlier one),
    then the grammar is checked. *)
Definition Grammar_new (start : NonTerm) (rules : list Rule)
    (amap : list (ActionKey * ActionValue)) : GrammarErrors + Grammar :=
  let g := {| start_symbol := start;
              rule_set := fold_left (fun m r => map_insert (head r) r m) rules [];
              action_map := amap |} in
  match check_grammar g with
  | None => inr g
  | Some e => inl e
  end.

(* ------------------------------------------------------------------ *)
(** ** Borrowed views: [ParentRef], [RefCompare], [NoCompare], [ProdRef] *)

(** A borrowed production view.  [pr_grammar] is the address of the owning
    grammar ([ParentRef]), [pr_ptr] the address of the production
    ([RefCompare]); productions of one rule live in one [Vec], so their
    addresses are ordered as their indices, which is what [pr_ptr] holds.
    [pr_action_value] is the resolved action value ([NoCompare]); [None]
    stands for a key with no entry in the action map. *)
Record ProdRef : Type := mkProdRef {
  pr_grammar : nat;
  pr_head : NonTerm;
  pr_ptr : nat;
  pr_prod : Production;
  pr_action_value : option ActionValue
}.

(** [ParentRef::eq] / [ParentRef::cmp]: assert that both parents are the
    same grammar; [None] is the failed assertion. *)
Definition parent_ref_eq (a b : nat) : option bool :=
  if Nat.eqb a b then Some true else None.

Definition parent_ref_cmp (a b : nat) : option comparison :=
  if Nat.eqb a b then Some Eq else None.

(** [NoCompare::eq] / [NoCompare::cmp] *)
Definition no_compare_eq {T : Type} (_ _ : T) : bool := true.
Definition no_compare_cmp {T : Type} (_ _ : T) : comparison := Eq.

(** [#[derive(PartialEq)]] on [ProdRef]: field by field, short-circuiting. *)
Definition prodref_eq (a b : ProdRef) : option bool :=
  match parent_ref_eq (pr_grammar a) (pr_grammar b) with
  | None => None
  | Some false => Some false
  | Some true =>
      Some (Nat.eqb (pr_head a) (pr_head b)
            && Nat.eqb (pr_ptr a) (pr_ptr b)
            && no_compare_eq (pr_action_value a) (pr_action_value b))
  end.

(** [#[derive(Ord)]] on [ProdRef]: lexicographic over the fields. *)
Definition prodref_cmp (a b : ProdRef) : option comparison :=
  match parent_ref_cmp (pr_grammar a) (pr_grammar b) with
  | None => None
  | Some Eq =>
      Some match Nat.compare (pr_head a) (pr_head b) with
           | Eq => match Nat.compare (pr_ptr a) (pr_ptr b) with
                   | Eq => no_compare_cmp (pr_action_value a) (pr_action_value b)
                   | c => c
                   end
           | c => c
           end
  | Some c => Some c
  end.

(** [RuleRef { grammar, head, prods }] *)
Record RuleRef : Type := mkRuleRef {
  rr_grammar : nat;
  rr_head : NonTerm;
  rr_prods : list Production
}.

Fixpoint option_all {A : Type} (l : list (option A)) : option (list A) :=
  match l with
  | [] => Some []
  | None :: _ => None
  | Some x :: l' =>
      match option_all l' with Some xs => Some (x :: xs) | None => None end
  end.

(** [RuleRef::prods]: the action value of every production is looked up in
    the grammar's action map and unwrapped; [None] is the panic of that
    [unwrap]. *)
Definition RuleRef_prods (g : Grammar) (rr : RuleRef) : option (list ProdRef) :=
  option_all
    (map (fun '(i, p) =>
            match map_get (action_key p) (action_map g) with
            | Some v => Some {| pr_grammar := rr_grammar rr; pr_head := rr_head rr;
                               pr_ptr := i; pr_prod := p;
                               pr_action_value := Some v |}
            | None => None
            end)
       (combine (seq 0 (length (rr_prods rr))) (rr_prods rr))).

(** The [RuleRef] of the rule of [nt] in a grammar at address [addr]. *)
Definition rule_ref (addr : nat) (g : Grammar) (nt : NonTerm) : option RuleRef :=
  match get_rule g nt with
  | Some r => Some {| rr_grammar := addr; rr_head := nt; rr_prods := prods r |}
  | None => None
  end.

(* ------------------------------------------------------------------ *)
(** ** The nullable engine ([grammar/nullables.rs]) *)

(** Modelled from the spec: [Grammar::prods], [ProdRef::head] and
    [ProdRef::prod_key] (used by the engine, their source is not part of
    src/).  The spec describes the accessor as enumerating a view for every
    (head, production) pair of the grammar, the action value resolved from
    the action map when the view is created; the only view constructor of
    src/ is [RuleRef::prods], which unwraps that lookup.  So the views are
    built rule by rule, in the order of the rule map, by [RuleRef::prods];
    [None] is its panic on a missing action key.  All the views of one
    invocation share the grammar's address, [0] here. *)
Definition grammar_prods (g : Grammar) : option (list ProdRef) :=
  match option_all
          (map (fun '(h, r) =>
                  RuleRef_prods g {| rr_grammar := 0; rr_head := h; rr_prods := prods r |})
             (rule_set g)) with
  | Some views => Some (concat views)
  | None => None
  end.

(** The views [grammar_prods] returns when no lookup fails (see
    [grammar_prods_Some] below), written as one list: each carries the
    looked-up action value. *)
Definition prod_views (g : Grammar) : list ProdRef :=
  flat_map (fun '(h, r) =>
              map (fun '(i, p) =>
                     {| pr_grammar := 0; pr_head := h; pr_ptr := i; pr_prod := p;
                        pr_action_value := map_get (action_key p) (action_map g) |})
                (combine (seq 0 (length (prods r))) (prods r)))
    (rule_set g).

Definition prod_key (pr : ProdRef) : ProdKey :=
  {| pk_head := pr_head pr; pk_action_key := action_key (pr_prod pr) |}.

(** The order of [BTreeSet<ProdRef>] for views of one grammar: head, then
    production address (see [prodref_cmp_same_grammar] below). *)
Definition prodref_order (a b : ProdRef) : comparison :=
  match Nat.compare (pr_head a) (pr_head b) with
  | Eq => Nat.compare (pr_ptr a) (pr_ptr b)
  | c => c
  end.

(** [BTreeSet<ProdRef>::insert] *)
Fixpoint prodset_insert (x : ProdRef) (s : list ProdRef) : bool * list ProdRef :=
  match s with
  | [] => (true, [x])
  | y :: s' =>
      match prodref_order x y with
      | Lt => (true, x :: s)
      | Eq => (false, s)
      | Gt => let '(b, s'') := prodset_insert x s' in (b, y :: s'')
      end
  end.

Record InternalNullableInfo : Type := mkInternalNullableInfo {
  nullable_actions : list ProdRef
}.

Definition InternalNullableInfo_new : InternalNullableInfo :=
  {| nullable_actions := [] |}.

(** [is_prod_nullable]: every element is a nonterminal that is a key of
    [nullables]; a terminal makes it false. *)
Definition is_prod_nullable {V : Type} (nullables : list (NonTerm * V))
    (prod : ProdRef) : bool :=
  forallb (fun e => match e with
                    | ETerm _ => false
                    | ENonTerm nt => map_contains nt nullables
                    end)
    (elements_iter (pr_prod prod)).

Definition NullableMap := list (NonTerm * InternalNullableInfo).

(** One iteration of [for prod in &prods] of pass 1; the [bool] is
    [changed]. *)
Definition pass1_visit (st : NullableMap * bool) (prod : ProdRef)
    : NullableMap * bool :=
  let '(nts, changed) := st in
  if is_prod_nullable nts prod then
    let info := match map_get (pr_head prod) nts with
                | Some i => i
                | None => InternalNullableInfo_new
                end in
    let '(inserted, actions) := prodset_insert prod (nullable_actions info) in
    if inserted
    then (map_insert (pr_head prod) {| nullable_actions := actions |} nts, true)
    else (nts, changed)
  else (nts, changed).

Definition pass1_round (prods : list ProdRef) (nts : NullableMap) : NullableMap * bool :=
  fold_left pass1_visit prods (nts, false).

(** The [loop] of [inner_calculate_nullables]; [fuel] bounds the number of
    rounds, [None] when it runs out. *)
Fixpoint inner_loop (fuel : nat) (prods : list ProdRef) (nts : NullableMap)
    : option NullableMap :=
  match fuel with
  | O => None
  | S fuel' =>
      let '(nts', changed) := pass1_round prods nts in
      if changed then inner_loop fuel' prods nts' else Some nts'
  end.

(** [inner_calculate_nullables] over the production list [g.prods()];
    the round bound is one more than the number of productions. *)
Definition inner_calculate_nullables_from (prods : list ProdRef) : option NullableMap :=
  inner_loop (S (length prods)) prods [].

(** Modelled from the spec: [crate::utils::TreeNode] and [TreeValue]
    (not part of src/): a node label and a map from child name to child
    value.  The value parameter is [Void], so a child is always a node. *)
Inductive TreeNode : Type :=
| mkTreeNode (node : ProdKey) (fields : list (Name * TreeValue))
with TreeValue : Type :=
| TVNode (t : TreeNode).

Definition tree_node (t : TreeNode) : ProdKey :=
  match t with mkTreeNode n _ => n end.

Definition tree_fields (t : TreeNode) : list (Name * TreeValue) :=
  match t with mkTreeNode _ f => f end.

Record NonTermNullableInfo : Type := mkNonTermNullableInfo {
  nullable_action : TreeNode
}.

Definition InfoMap := list (NonTerm * NonTermNullableInfo).

(** The outcome of [calculate_nullables]: [Ok], [Err(NullableAmbiguity)],
    a panic, or the model's round bound running out. *)
Inductive Result (A : Type) : Type :=
| ROk (a : A)
| RNullableAmbiguity
| RPanic
| ROutOfFuel.
Arguments ROk {A} a.
Arguments RNullableAmbiguity {A}.
Arguments RPanic {A}.
Arguments ROutOfFuel {A}.

Definition res_bind {A B : Type} (r : Result A) (k : A -> Result B) : Result B :=
  match r with
  | ROk a => k a
  | RNullableAmbiguity => RNullableAmbiguity
  | RPanic => RPanic
  | ROutOfFuel => ROutOfFuel
  end.

Notation "x <- c1 ;; c2" := (res_bind c1 (fun x => c2))
  (at level 61, c1 at next level, right associativity).

(** The sanity check: an empty set panics, more than one production is
    the ambiguity error. *)
Fixpoint sanity_check (l : NullableMap) : Result unit :=
  match l with
  | [] => ROk tt
  | (_, info) :: l' =>
      match nullable_actions info with
      | [] => RPanic
      | [_] => sanity_check l'
      | _ => RNullableAmbiguity
      end
  end.

(** [get_only] *)
Definition get_only {A : Type} (l : list A) : Result A :=
  match l with
  | [x] => ROk x
  | _ => RPanic
  end.

(** [nullable_action_map] *)
Fixpoint build_action_map (l : NullableMap) (acc : list (NonTerm * ProdRef))
    : Result (list (NonTerm * ProdRef)) :=
  match l with
  | [] => ROk acc
  | (nt, info) :: l' =>
      p <- get_only (nullable_actions info) ;;
      build_action_map l' (map_insert nt p acc)
  end.

(** The inner [for prod_elem in prod.prod_elements()] of pass 2: [None] is
    [continue 'outer] (a named nonterminal whose tree is not built yet). *)
Fixpoint build_fields (infos : InfoMap) (elems : list ProductionElement)
    (fields : list (Name * TreeValue)) : option (list (Name * TreeValue)) :=
  match elems with
  | [] => Some fields
  | pe :: rest =>
      match identifier pe, element pe with
      | Some id, ENonTerm nt =>
          match map_get nt infos with
          | None => None
          | Some s => build_fields infos rest
                        (map_insert id (TVNode (nullable_action s)) fields)
          end
      | _, _ => build_fields infos rest fields
      end
  end.

(** The ['outer: for null_nt in &remaining_nullables] pass. *)
Fixpoint pass2_pass (amap : list (NonTerm * ProdRef)) (remaining : list NonTerm)
    (infos : InfoMap) : Result InfoMap :=
  match remaining with
  | [] => ROk infos
  | null_nt :: rest =>
      match map_get null_nt amap with
      | None => RPanic
      | Some prod =>
          match build_fields infos (elements (pr_prod prod)) [] with
          | None => pass2_pass amap rest infos
          | Some fields =>
              pass2_pass amap rest
                (map_insert null_nt
                   {| nullable_action := mkTreeNode (prod_key prod) fields |} infos)
          end
      end
  end.

Definition remove_built (infos : InfoMap) (remaining : list NonTerm) : list NonTerm :=
  fold_left (fun s nt => set_remove nt s) (map_keys infos) remaining.

(** The [loop] of pass 2; [fuel] bounds the number of rounds. *)
Fixpoint pass2_loop (fuel : nat) (amap : list (NonTerm * ProdRef))
    (remaining : list NonTerm) (infos : InfoMap) : Result InfoMap :=
  match fuel with
  | O => ROutOfFuel
  | S fuel' =>
      infos' <- pass2_pass amap remaining infos ;;
      match remove_built infos' remaining with
      | [] => ROk infos'
      | remaining' => pass2_loop fuel' amap remaining' infos'
      end
  end.

Definition calculate_nullables_from (prods : list ProdRef) : Result InfoMap :=
  inner_info <- match inner_calculate_nullables_from prods with
                | Some m => ROk m
                | None => ROutOfFuel
                end ;;
  _ <- sanity_check inner_info ;;
  amap <- build_action_map inner_info [] ;;
  let remaining := set_of_list (map_keys inner_info) in
  pass2_loop (S (length remaining)) amap remaining [].

(** [inner_calculate_nullables]: [g.prods()] (a panic when a view cannot
    be created), then the loop. *)
Definition inner_calculate_nullables (g : Grammar) : Result NullableMap :=
  match grammar_prods g with
  | None => RPanic
  | Some prods =>
      match inner_calculate_nullables_from prods with
      | Some m => ROk m
      | None => ROutOfFuel
      end
  end.

(** [calculate_nullables]: its pass 1 calls [g.prods()] (a panic when a
    view cannot be created). *)
Definition calculate_nullables (g : Grammar) : Result InfoMap :=
  match grammar_prods g with
  | None => RPanic
  | Some prods => calculate_nullables_from prods
  end.

(** [GrammarNullableInfo::get_nullable_set] *)
Definition get_nullable_set (r : Result InfoMap) : option (list NonTerm) :=
  match r with ROk m => Some (map_keys m) | _ => None end.

(* ------------------------------------------------------------------ *)
(** ** Reference notions, as the spec states them *)

(** [nt] derives the empty sequence: some production of the rule of [nt]
    has only nonterminal elements, each deriving the empty sequence. *)
Inductive derives_empty (g : Grammar) : NonTerm -> Prop :=
| derives_empty_intro (nt : NonTerm) (r : Rule) (p : Production) :
    In (nt, r) (rule_set g) -> In p (prods r) ->
    (forall e, In e (elements_iter p) -> exists nt', e = ENonTerm nt') ->
    (forall nt', In (ENonTerm nt') (elements_iter p) -> derives_empty g nt') ->
    derives_empty g nt.

(** Every right-hand-side element of [pr] is a nonterminal deriving the
    empty sequence. *)
Definition prod_derives_empty (g : Grammar) (pr : ProdRef) : Prop :=
  forall e, In e (elements_iter (pr_prod pr)) ->
            exists nt, e = ENonTerm nt /\ derives_empty g nt.

(** Reachability from the start symbol by repeatedly expanding right-hand
    sides. *)
Inductive reachable_from (g : Grammar) : NonTerm -> Prop :=
| reachable_start : reachable_from g (start_symbol g)
| reachable_step (nt n : NonTerm) (r : Rule) (p : Production) :
    reachable_from g nt -> get_rule g nt = Some r -> In p (prods r) ->
    In (ENonTerm n) (elements_iter p) -> reachable_from g n.

(** The nonterminal of the last element of [elems] that is a named
    nonterminal bound to [id]: the one whose tree a [BTreeMap] keyed by
    binding name keeps. *)
Fixpoint last_binding (id : Name) (elems : list ProductionElement) : option NonTerm :=
  match elems with
  | [] => None
  | pe :: rest =>
      match last_binding id rest with
      | Some nt => Some nt
      | None =>
          match pe with
          | mkProductionElement (Some id') (ENonTerm nt) =>
              if Nat.eqb id id' then Some nt else None
          | _ => None
          end
      end
  end.

(** A view with its action value replaced. *)
Definition with_action_value (a : ProdRef) (v : option ActionValue) : ProdRef :=
  {| pr_grammar := pr_grammar a; pr_head := pr_head a; pr_ptr := pr_ptr a;
     pr_prod := pr_prod a; pr_action_value := v |}.

(* ------------------------------------------------------------------ *)
(** ** Example grammars *)

Definition named_nt (id : Name) (nt : NonTerm) : ProductionElement :=
  {| identifier := Some id; element := ENonTerm nt |}.

Definition term_elem (t : Term) : ProductionElement :=
  {| identifier := None; element := ETerm t |}.

Definition grammar_of (start : NonTerm) (rules : list Rule)
    (amap : list (ActionKey * ActionValue)) : Grammar :=
  {| start_symbol := start;
     rule_set := fold_left (fun m r => map_insert (head r) r m) rules [];
     action_map := amap |}.

(** [0 -> a:1 | t5], [1 -> b:2], [2 -> ()]: a chain of nullable rules,
    every action key in the action map. *)
Definition ex_chain_rules : list Rule :=
  [mkRule 0 [mkProduction 10 [named_nt 1 1]; mkProduction 13 [term_elem 5]];
   mkRule 1 [mkProduction 11 [named_nt 2 2]];
   mkRule 2 [mkProduction 12 []]].

Definition ex_chain_amap : list (ActionKey * ActionValue) :=
  [(10, 1); (11, 2); (12, 3); (13, 4)].

Definition ex_chain : Grammar := grammar_of 0 ex_chain_rules ex_chain_amap.

Definition ex_chain_info : InfoMap :=
  match calculate_nullables ex_chain with ROk r => r | _ => [] end.

(** [0 -> () | ()]: two empty productions for one nonterminal, both
    action keys in the action map. *)
Definition ex_ambiguous : Grammar :=
  grammar_of 0 [mkRule 0 [mkProduction 10 []; mkProduction 11 []]] [(10, 1); (11, 2)].

(** [0 -> x:1 x:2], [1 -> ()], [2 -> ()]: one binding name used twice,
    every action key in the action map. *)
Definition ex_dup_names_rules : list Rule :=
  [mkRule 0 [mkProduction 10 [named_nt 7 1; named_nt 7 2]];
   mkRule 1 [mkProduction 11 []];
   mkRule 2 [mkProduction 12 []]].

Definition ex_dup_names_amap : list (ActionKey * ActionValue) :=
  [(10, 1); (11, 2); (12, 3)].

Definition ex_dup_names : Grammar := grammar_of 0 ex_dup_names_rules ex_dup_names_amap.

Definition ex_dup_names_info : InfoMap :=
  match calculate_nullables ex_dup_names with ROk r => r | _ => [] end.

(** [0 -> t1], [5 -> t1]: the rule of [5] is never reached. *)
Definition ex_unreached_head_rules : list Rule :=
  [mkRule 0 [mkProduction 10 [term_elem 1]]; mkRule 5 [mkProduction 11 [term_elem 1]]].

(** [0 -> t1], [5 -> 9], [6 -> ]: five defects (5, 6 and 9 unreachable, 9
    without a rule, 6 without productions). *)
Definition ex_defects_rules : list Rule :=
  [mkRule 0 [mkProduction 10 [term_elem 1]];
   mkRule 5 [mkProduction 11 [{| identifier := None; element := ENonTerm 9 |}]];
   mkRule 6 []].

(** [0 -> t1] then [0 -> t2]: two rules with one head. *)
Definition ex_dup_head_rules : list Rule :=
  [mkRule 0 [mkProduction 10 [term_elem 1]]; mkRule 0 [mkProduction 11 [term_elem 2]]].

(** [7 -> t1 | () | a:0], each action key in the action map: the
    [RuleRef] of a rule with three productions, and its views. *)
Definition ex_three_prods_rr : RuleRef :=
  {| rr_grammar := 0; rr_head := 7;
     rr_prods := [mkProduction 10 [term_elem 1]; mkProduction 11 [];
                  mkProduction 12 [named_nt 1 0]] |}.

Definition ex_three_prods : Grammar :=
  grammar_of 7 [mkRule 7 (rr_prods ex_three_prods_rr)] [(10, 4); (11, 5); (12, 6)].

Definition ex_three_prods_views : list ProdRef :=
  match RuleRef_prods ex_three_prods ex_three_prods_rr with Some l => l | None => [] end.

(* ------------------------------------------------------------------ *)
(** ** Further accessors of [Grammar] and [GrammarNullableInfo] *)

(** [ProdAndHead { head, prod }] *)
Record ProdAndHead : Type := mkProdAndHead {
  pah_head : NonTerm;
  pah_prod : Production
}.

(** [ProdAndHead::key] *)
Definition ProdAndHead_key (x : ProdAndHead) : ProdKey :=
  {| pk_head := pah_head x; pk_action_key := action_key (pah_prod x) |}.

(** [Grammar::prod_and_heads]: rules in key order, each rule's productions
    in order. *)
Definition prod_and_heads (g : Grammar) : list ProdAndHead :=
  flat_map (fun '(head, rule) => map (fun prod => mkProdAndHead head prod) (prods rule))
    (rule_set g).

(** [#[derive(Ord)]] on [ProdKey]: head, then action key. *)
Definition prodkey_cmp (a b : ProdKey) : comparison :=
  match Nat.compare (pk_head a) (pk_head b) with
  | Eq => Nat.compare (pk_action_key a) (pk_action_key b)
  | c => c
  end.

(** [BTreeMap<ProdKey, V>::get] *)
Fixpoint pk_map_get {V : Type} (k : ProdKey) (m : list (ProdKey * V)) : option V :=
  match m with
  | [] => None
  | (k', v) :: m' => match prodkey_cmp k k' with
                     | Eq => Some v
                     | _ => pk_map_get k m'
                     end
  end.

(** [match map.entry(k) { Occupied(_) => panic!(..), Vacant(vac) => vac.insert(v) }]
    on a [BTreeMap<ProdKey, V>]; [None] is the panic. *)
Fixpoint pk_entry_insert_vacant {V : Type} (k : ProdKey) (v : V)
    (m : list (ProdKey * V)) : option (list (ProdKey * V)) :=
  match m with
  | [] => Some [(k, v)]
  | (k', v') :: m' =>
      match prodkey_cmp k k' with
      | Lt => Some ((k, v) :: m)
      | Eq => None
      | Gt => match pk_entry_insert_vacant k v m' with
              | Some m'' => Some ((k', v') :: m'')
              | None => None
              end
      end
  end.

(** [Grammar::get_action_map]: [None] is the panic on a duplicated
    [ProdKey]. *)
Definition get_action_map (g : Grammar) : option (list (ProdKey * ProdAndHead)) :=
  fold_left
    (fun acc '(nt_head, rule) =>
       fold_left
         (fun acc prod =>
            match acc with
            | None => None
            | Some map =>
                pk_entry_insert_vacant
                  {| pk_head := nt_head; pk_action_key := action_key prod |}
                  (mkProdAndHead nt_head prod) map
            end)
         (prods rule) acc)
    (rule_set g) (Some []).

(** [GrammarNullableInfo::is_nullable] *)
Definition GrammarNullableInfo_is_nullable (info : InfoMap) (nt : NonTerm) : bool :=
  map_contains nt info.

(** [GrammarNullableInfo::is_prod_nullable] *)
Definition GrammarNullableInfo_is_prod_nullable (info : InfoMap) (prod : ProdRef) : bool :=
  is_prod_nullable info prod.

(** [GrammarNullableInfo::get_nullable_info] *)
Definition GrammarNullableInfo_get_nullable_info (info : InfoMap) (nt : NonTerm)
    : option NonTermNullableInfo :=
  map_get nt info.

(** [GrammarNullableInfo::get_nullable_set]: the keys collected into a
    [BTreeSet]. *)
Definition GrammarNullableInfo_get_nullable_set (info : InfoMap) : list NonTerm :=
  set_of_list (map_keys info).

(** The statement helpers below follow the code's data, not a function of
    it. *)

(** A nonterminal written on the right-hand side of some production. *)
Definition occurs_in_rhs (g : Grammar) (nt : NonTerm) : Prop :=
  exists h r p, In (h, r) (rule_set g) /\ In p (prods r)
                /\ In (ENonTerm nt) (elements_iter p).

(** The last rule of [rules] whose head is [h]. *)
Fixpoint last_rule_with_head (h : NonTerm) (rules : list Rule) : option Rule :=
  match rules with
  | [] => None
  | r :: rs =>
      match last_rule_with_head h rs with
      | Some r' => Some r'
      | None => if Nat.eqb (head r) h then Some r else None
      end
  end.

(* ================================================================== *)
(** * Properties *)

From Stdlib Require Import Sorted.

(* ------------------------------------------------------------------ *)
(** ** Maps and sets *)

Section MapFacts.
Context {V : Type}.

Lemma map_get_insert_same (k : nat) (v : V) (m : list (nat * V)) :
  map_get k (map_insert k v m) = Some v.
Proof.
  induction m as [|[k' v'] m IH]; simpl.
  - now rewrite Nat.eqb_refl.
  - destruct (Nat.compare_spec k k'); simpl; rewrite ?Nat.eqb_refl; auto.
    destruct (Nat.eqb_spec k k'); [lia|]. exact IH.
Qed.

Lemma map_get_insert_other (k k' : nat) (v : V) (m : list (nat * V)) :
  k' <> k -> map_get k' (map_insert k v m) = map_get k' m.
Proof.
  intros Hne. induction m as [|[k0 v0] m IH]; simpl.
  - destruct (Nat.eqb_spec k' k); [lia|reflexivity].
  - destruct (Nat.compare_spec k k0); simpl.
    + subst. destruct (Nat.eqb_spec k' k0); [lia|reflexivity].
    + destruct (Nat.eqb_spec k' k); [lia|reflexivity].
    + destruct (Nat.eqb_spec k' k0); auto.
Qed.

Lemma map_get_insert (k k' : nat) (v : V) (m : list (nat * V)) :
  map_get k' (map_insert k v m) = if Nat.eqb k' k then Some v else map_get k' m.
Proof.
  destruct (Nat.eqb_spec k' k).
  - subst. apply map_get_insert_same.
  - now apply map_get_insert_other.
Qed.

Lemma in_map_insert (k k' : nat) (v v' : V) (m : list (nat * V)) :
  In (k', v') (map_insert k v m) -> (k', v') = (k, v) \/ In (k', v') m.
Proof.
  induction m as [|[k0 v0] m IH]; simpl.
  - intuition.
  - destruct (Nat.compare k k0); simpl; intuition.
Qed.

Lemma map_get_In (k : nat) (v : V) (m : list (nat * V)) :
  map_get k m = Some v -> In (k, v) m.
Proof.
  induction m as [|[k0 v0] m IH]; simpl; [discriminate|].
  destruct (Nat.eqb_spec k k0); intros H.
  - inversion H; subst; auto.
  - auto.
Qed.

Lemma map_contains_get (k : nat) (m : list (nat * V)) :
  map_contains k m = true <-> exists v, map_get k m = Some v.
Proof.
  unfold map_contains. destruct (map_get k m); split; intros H.
  - eauto.
  - reflexivity.
  - discriminate.
  - destruct H; discriminate.
Qed.

Lemma map_get_keys (k : nat) (m : list (nat * V)) :
  In k (map_keys m) <-> exists v, map_get k m = Some v.
Proof.
  unfold map_keys. induction m as [|[k0 v0] m IH]; simpl.
  - split; [contradiction|intros [v H]; discriminate].
  - destruct (Nat.eqb_spec k k0).
    + subst. split; eauto.
    + rewrite <- IH. split; [intros [H|H]; [congruence|exact H]|auto].
Qed.

End MapFacts.

Lemma set_insert_In (x y : nat) (s : list nat) :
  In y (snd (set_insert x s)) <-> y = x \/ In y s.
Proof.
  induction s as [|z s IH]; simpl.
  - intuition.
  - destruct (Nat.compare_spec x z); simpl.
    + subst. intuition.
    + intuition.
    + destruct (set_insert x s) as [b s''] eqn:E. simpl in *. rewrite IH. intuition.
Qed.

Lemma set_of_list_In (l : list nat) (y : nat) :
  In y (set_of_list l) <-> In y l.
Proof.
  unfold set_of_list.
  assert (G : forall acc, In y (fold_left (fun s x => snd (set_insert x s)) l acc)
                          <-> In y acc \/ In y l).
  { induction l as [|x l IH]; intros acc; simpl.
    - intuition.
    - rewrite IH, set_insert_In. intuition. }
  rewrite G. simpl. intuition.
Qed.

Lemma set_mem_In (x : nat) (s : list nat) : set_mem x s = true <-> In x s.
Proof.
  unfold set_mem. rewrite existsb_exists. split.
  - intros [y [Hy Heq]]. apply Nat.eqb_eq in Heq. now subst.
  - intros H. exists x. split; [exact H|apply Nat.eqb_refl].
Qed.

(* ------------------------------------------------------------------ *)
(** ** The production-view order *)

Definition prodref_lt (a b : ProdRef) : Prop := prodref_order a b = Lt.

Lemma prodref_order_Eq (a b : ProdRef) :
  prodref_order a b = Eq <-> pr_head a = pr_head b /\ pr_ptr a = pr_ptr b.
Proof.
  unfold prodref_order.
  destruct (Nat.compare_spec (pr_head a) (pr_head b));
    [destruct (Nat.compare_spec (pr_ptr a) (pr_ptr b))|..];
    split; intros; try discriminate; try lia; tauto.
Qed.

Lemma prodref_order_Gt (a b : ProdRef) :
  prodref_order a b = Gt -> prodref_lt b a.
Proof.
  unfold prodref_lt, prodref_order.
  destruct (Nat.compare_spec (pr_head a) (pr_head b));
    [destruct (Nat.compare_spec (pr_ptr a) (pr_ptr b))|..]; intros Hx;
    try discriminate;
    destruct (Nat.compare_spec (pr_head b) (pr_head a));
    try destruct (Nat.compare_spec (pr_ptr b) (pr_ptr a)); lia || reflexivity.
Qed.

Lemma prodref_lt_trans (a b c : ProdRef) :
  prodref_lt a b -> prodref_lt b c -> prodref_lt a c.
Proof.
  unfold prodref_lt, prodref_order.
  destruct (Nat.compare_spec (pr_head a) (pr_head b));
    try destruct (Nat.compare_spec (pr_ptr a) (pr_ptr b));
    destruct (Nat.compare_spec (pr_head b) (pr_head c));
    try destruct (Nat.compare_spec (pr_ptr b) (pr_ptr c));
    destruct (Nat.compare_spec (pr_head a) (pr_head c));
    try destruct (Nat.compare_spec (pr_ptr a) (pr_ptr c));
    intros; try discriminate; try reflexivity; lia.
Qed.

Lemma prodref_lt_not_Eq (a b : ProdRef) :
  prodref_lt a b -> prodref_order a b <> Eq.
Proof. unfold prodref_lt. congruence. Qed.

Lemma prodref_order_Eq_trans (a b c : ProdRef) :
  prodref_order a b = Eq -> prodref_order b c = Eq -> prodref_order a c = Eq.
Proof. rewrite !prodref_order_Eq. intuition congruence. Qed.

Lemma prodref_order_Eq_sym (a b : ProdRef) :
  prodref_order a b = Eq -> prodref_order b a = Eq.
Proof. rewrite !prodref_order_Eq. intuition congruence. Qed.

Lemma prodref_lt_Eq_l (a b c : ProdRef) :
  prodref_order a b = Eq -> prodref_lt b c -> prodref_lt a c.
Proof.
  rewrite prodref_order_Eq. unfold prodref_lt, prodref_order.
  intros [H1 H2]. now rewrite H1, H2.
Qed.

Definition prodset_sorted (s : list ProdRef) : Prop := StronglySorted prodref_lt s.

Lemma prodset_insert_In (x y : ProdRef) (s : list ProdRef) :
  In y (snd (prodset_insert x s)) -> y = x \/ In y s.
Proof.
  induction s as [|z s IH]; simpl.
  - intuition.
  - destruct (prodref_order x z); simpl.
    + auto.
    + intuition.
    + destruct (prodset_insert x s) as [b s''] eqn:E. simpl in *. intuition.
Qed.

Lemma prodset_insert_mem (x : ProdRef) (s : list ProdRef) :
  In x (snd (prodset_insert x s))
  \/ exists y, In y s /\ prodref_order x y = Eq /\ prodset_insert x s = (false, s).
Proof.
  induction s as [|z s IH]; simpl.
  - auto.
  - destruct (prodref_order x z) eqn:Ho; simpl.
    + right. exists z. auto.
    + auto.
    + destruct (prodset_insert x s) as [b s''] eqn:E. simpl in *.
      destruct IH as [IH|[y [Hy [Hyo IHe]]]]; [auto|].
      inversion IHe; subst. right. exists y. auto.
Qed.

Lemma prodset_insert_false (x : ProdRef) (s s' : list ProdRef) :
  prodset_insert x s = (false, s') ->
  s' = s /\ exists y, In y s /\ prodref_order x y = Eq.
Proof.
  revert s'. induction s as [|z s IH]; simpl; intros s' H.
  - discriminate.
  - destruct (prodref_order x z) eqn:Ho.
    + inversion H. subst. split; [reflexivity|]. exists z. auto.
    + discriminate.
    + destruct (prodset_insert x s) as [b s''] eqn:E. inversion H; subst.
      destruct (IH s'' eq_refl) as [-> [y [Hy Hyo]]]. split; [reflexivity|].
      exists y. auto.
Qed.

Lemma prodset_insert_true_new (x : ProdRef) (s s' : list ProdRef) :
  prodset_sorted s -> prodset_insert x s = (true, s') ->
  In x s' /\ forall y, In y s -> prodref_order x y <> Eq.
Proof.
  revert s'. induction s as [|z s IH]; simpl; intros s' Hs H.
  - inversion H; subst. split; [left; reflexivity|contradiction].
  - inversion Hs as [|z0 s0 Hs' Hall]; subst.
    destruct (prodref_order x z) eqn:Ho.
    + discriminate.
    + inversion H; subst. split; [left; reflexivity|].
      intros y [<-|Hy]; [congruence|].
      apply prodref_lt_not_Eq. eapply prodref_lt_trans; [exact Ho|].
      rewrite Forall_forall in Hall. now apply Hall.
    + destruct (prodset_insert x s) as [b s''] eqn:E. inversion H; subst.
      destruct (IH s'' Hs' eq_refl) as [Hin Hnew]. split; [right; exact Hin|].
      intros y [<-|Hy]; [congruence|]. now apply Hnew.
Qed.

Lemma prodset_insert_sorted (x : ProdRef) (s : list ProdRef) :
  prodset_sorted s -> prodset_sorted (snd (prodset_insert x s)).
Proof.
  unfold prodset_sorted. induction s as [|z s IH]; simpl; intros Hs.
  - repeat constructor.
  - inversion Hs as [|z0 s0 Hs' Hall]; subst.
    destruct (prodref_order x z) eqn:Ho; simpl.
    + exact Hs.
    + constructor; [exact Hs|]. constructor; [exact Ho|].
      rewrite Forall_forall in *. intros y Hy.
      eapply prodref_lt_trans; [exact Ho|]. now apply Hall.
    + destruct (prodset_insert x s) as [b s''] eqn:E. simpl in *.
      constructor; [now apply IH|].
      rewrite Forall_forall in *. intros y Hy.
      destruct (prodset_insert_In x y s) as [<-|Hy']; [rewrite E; exact Hy| |].
      * now apply prodref_order_Gt.
      * now apply Hall.
Qed.

Lemma prodset_insert_keeps (x y : ProdRef) (s : list ProdRef) :
  In y s -> In y (snd (prodset_insert x s)).
Proof.
  induction s as [|z s IH]; simpl; [contradiction|].
  destruct (prodref_order x z); simpl; [auto|auto|].
  destruct (prodset_insert x s) as [b s''] eqn:E. simpl in *. intuition.
Qed.

(** Sorted keys, the representation invariant of [BTreeMap]/[BTreeSet]. *)
Definition map_sorted {V : Type} (m : list (nat * V)) : Prop :=
  StronglySorted (fun a b => fst a < fst b) m.

Lemma map_insert_In_key {V : Type} (k k' : nat) (v : V) (m : list (nat * V)) :
  In k' (map fst (map_insert k v m)) -> k' = k \/ In k' (map fst m).
Proof.
  intros H. apply in_map_iff in H as [[a b] [Ha Hin]]. simpl in Ha. subst.
  apply in_map_insert in Hin as [Heq|Hin].
  - inversion Heq; auto.
  - right. apply in_map_iff. eexists. split; [|exact Hin]. reflexivity.
Qed.

Lemma map_insert_sorted {V : Type} (k : nat) (v : V) (m : list (nat * V)) :
  map_sorted m -> map_sorted (map_insert k v m).
Proof.
  unfold map_sorted. induction m as [|[k0 v0] m IH]; simpl; intros Hs.
  - repeat constructor.
  - inversion Hs as [|x0 m0 Hs' Hall]; subst.
    destruct (Nat.compare_spec k k0); simpl.
    + subst. constructor; [exact Hs'|]. exact Hall.
    + constructor; [exact Hs|]. constructor; [simpl; lia|].
      rewrite Forall_forall in *. intros [a b] Hab. specialize (Hall _ Hab). simpl in *. lia.
    + constructor; [now apply IH|]. rewrite Forall_forall in *.
      intros [a b] Hab. apply in_map_insert in Hab as [Heq|Hab].
      * inversion Heq; subst. simpl. lia.
      * exact (Hall _ Hab).
Qed.

Lemma map_sorted_NoDup {V : Type} (m : list (nat * V)) :
  map_sorted m -> NoDup (map fst m).
Proof.
  unfold map_sorted. induction m as [|[k v] m IH]; simpl; intros Hs; [constructor|].
  inversion Hs as [|x0 m0 Hs' Hall]; subst. constructor; [|now apply IH].
  intros Hin. apply in_map_iff in Hin as [[a b] [Ha Hab]]. simpl in Ha. subst.
  rewrite Forall_forall in Hall. specialize (Hall _ Hab). simpl in Hall. lia.
Qed.

Lemma map_get_NoDup_In {V : Type} (k : nat) (v : V) (m : list (nat * V)) :
  NoDup (map fst m) -> In (k, v) m -> map_get k m = Some v.
Proof.
  induction m as [|[k0 v0] m IH]; simpl; intros Hnd Hin; [contradiction|].
  inversion Hnd as [|x0 l0 Hnin Hnd']; subst.
  destruct Hin as [Heq|Hin].
  - inversion Heq; subst. now rewrite Nat.eqb_refl.
  - destruct (Nat.eqb_spec k k0); [|now apply IH].
    subst. exfalso. apply Hnin. apply in_map_iff. exists (k0, v). auto.
Qed.

Lemma set_insert_sorted (x : nat) (s : list nat) :
  StronglySorted lt s -> StronglySorted lt (snd (set_insert x s)).
Proof.
  induction s as [|y s IH]; simpl; intros Hs.
  - repeat constructor.
  - inversion Hs as [|y0 s0 Hs' Hall]; subst.
    destruct (Nat.compare_spec x y); simpl.
    + exact Hs.
    + constructor; [exact Hs|]. constructor; [lia|].
      rewrite Forall_forall in *. intros z Hz. specialize (Hall _ Hz). lia.
    + destruct (set_insert x s) as [b s''] eqn:E. simpl in *.
      constructor; [now apply IH|]. rewrite Forall_forall in *.
      intros z Hz. assert (Hz' : In z (snd (set_insert x s))) by (rewrite E; exact Hz).
      apply set_insert_In in Hz' as [->|Hz']; [lia|exact (Hall _ Hz')].
Qed.

Lemma set_of_list_NoDup (l : list nat) : NoDup (set_of_list l).
Proof.
  assert (G : forall acc, StronglySorted lt acc ->
              StronglySorted lt (fold_left (fun s x => snd (set_insert x s)) l acc)).
  { induction l as [|x l IH]; intros acc Hacc; simpl; [exact Hacc|].
    apply IH. now apply set_insert_sorted. }
  assert (Hs : StronglySorted lt (set_of_list l)) by (apply G; constructor).
  clear G. induction Hs as [|a s Hs IH Hall]; constructor; [|exact IH].
  intros Hin. rewrite Forall_forall in Hall. specialize (Hall _ Hin). lia.
Qed.

(* ------------------------------------------------------------------ *)
(** ** Pass 1: the fixpoint over a production list [P] *)

Section Pass1.
Variable P : list ProdRef.

(** A nonterminal derives the empty sequence when one of its productions
    has only nonterminals that derive the empty sequence (least fixpoint). *)
Inductive nullable_in : NonTerm -> Prop :=
| nullable_in_intro (pr : ProdRef) :
    In pr P ->
    (forall e, In e (elements_iter (pr_prod pr)) -> exists nt, e = ENonTerm nt) ->
    (forall nt, In (ENonTerm nt) (elements_iter (pr_prod pr)) -> nullable_in nt) ->
    nullable_in (pr_head pr).

Definition prod_nullable_in (pr : ProdRef) : Prop :=
  forall e, In e (elements_iter (pr_prod pr)) ->
            exists nt, e = ENonTerm nt /\ nullable_in nt.

Lemma nullable_in_intro' (pr : ProdRef) :
  In pr P -> prod_nullable_in pr -> nullable_in (pr_head pr).
Proof.
  intros HP Hn. apply nullable_in_intro; [exact HP| |].
  - intros e He. destruct (Hn e He) as [nt [-> _]]. eauto.
  - intros nt He. destruct (Hn _ He) as [nt' [Heq Hnt]]. now inversion Heq; subst.
Qed.

Lemma nullable_in_inv (nt : NonTerm) :
  nullable_in nt -> exists pr, In pr P /\ pr_head pr = nt /\ prod_nullable_in pr.
Proof.
  intros H. destruct H as [pr HP Hall Hnt]. exists pr. repeat split; [exact HP|].
  intros e He. destruct (Hall e He) as [nt ->]. exists nt. split; auto.
Qed.

(** [pr] is in the evidence set of its head (up to the view order). *)
Definition recordedb (nts : NullableMap) (pr : ProdRef) : bool :=
  match map_get (pr_head pr) nts with
  | Some info => existsb (fun y => match prodref_order pr y with
                                   | Eq => true | _ => false end)
                   (nullable_actions info)
  | None => false
  end.

Record pass1_inv (nts : NullableMap) : Prop := {
  inv_keys : forall h, map_contains h nts = true -> nullable_in h;
  inv_sorted : forall h info, map_get h nts = Some info ->
                              prodset_sorted (nullable_actions info);
  inv_nonempty : Forall (fun hv => nullable_actions (snd hv) <> []) nts;
  inv_members : forall h info y, map_get h nts = Some info ->
                In y (nullable_actions info) ->
                In y P /\ pr_head y = h /\ prod_nullable_in y;
  inv_keys_sorted : map_sorted nts
}.

Definition closed (nts : NullableMap) : Prop :=
  forall q, In q P -> is_prod_nullable nts q = true -> recordedb nts q = true.

Lemma is_prod_nullable_spec {V : Type} (nts : list (NonTerm * V)) (pr : ProdRef) :
  is_prod_nullable nts pr = true <->
  forall e, In e (elements_iter (pr_prod pr)) ->
            exists nt, e = ENonTerm nt /\ map_contains nt nts = true.
Proof.
  unfold is_prod_nullable. rewrite forallb_forall. split.
  - intros H e He. specialize (H e He). destruct e as [t|nt]; [discriminate|eauto].
  - intros H e He. destruct (H e He) as [nt [-> Hc]]. exact Hc.
Qed.

Lemma recordedb_spec (nts : NullableMap) (pr : ProdRef) :
  recordedb nts pr = true <->
  exists info y, map_get (pr_head pr) nts = Some info /\
                 In y (nullable_actions info) /\ prodref_order pr y = Eq.
Proof.
  unfold recordedb. destruct (map_get (pr_head pr) nts) as [info|].
  - rewrite existsb_exists. split.
    + intros [y [Hy Ho]]. exists info, y. destruct (prodref_order pr y); easy.
    + intros [i [y [Hi [Hy Ho]]]]. inversion Hi; subst. exists y. now rewrite Ho.
  - split; [discriminate|]. intros [i [y [Hi _]]]. discriminate.
Qed.

Lemma pass1_visit_mono (nts : NullableMap) (c : bool) (pr q : ProdRef) :
  recordedb nts q = true -> recordedb (fst (pass1_visit (nts, c) pr)) q = true.
Proof.
  unfold pass1_visit. destruct (is_prod_nullable nts pr); [|auto].
  destruct (map_get (pr_head pr) nts) as [info|] eqn:Hg;
    destruct (prodset_insert pr _) as [[|] acts] eqn:Ei; simpl; auto;
    rewrite !recordedb_spec; intros [i [y [Hi [Hy Ho]]]];
    rewrite map_get_insert in *;
    destruct (Nat.eqb_spec (pr_head q) (pr_head pr)) as [He|He];
    try (exists i, y; auto; fail).
  - rewrite He in Hi. rewrite Hg in Hi. inversion Hi; subst.
    exists {| nullable_actions := acts |}, y. repeat split; auto. simpl.
    change acts with (snd (true, acts)). rewrite <- Ei.
    now apply prodset_insert_keeps.
  - rewrite He in Hi. rewrite Hg in Hi. discriminate.
Qed.

Lemma pass1_visit_inv (nts : NullableMap) (c : bool) (pr : ProdRef) :
  pass1_inv nts -> In pr P -> pass1_inv (fst (pass1_visit (nts, c) pr)).
Proof.
  intros Hinv HP. unfold pass1_visit.
  destruct (is_prod_nullable nts pr) eqn:Hn; [|exact Hinv].
  set (info := match map_get (pr_head pr) nts with
               | Some i => i | None => InternalNullableInfo_new end).
  assert (Hinfo_sorted : prodset_sorted (nullable_actions info)).
  { unfold info. destruct (map_get (pr_head pr) nts) eqn:Hg.
    - eapply inv_sorted; eauto.
    - constructor. }
  assert (Hinfo_mem : forall y, In y (nullable_actions info) ->
                      In y P /\ pr_head y = pr_head pr /\ prod_nullable_in y).
  { unfold info. destruct (map_get (pr_head pr) nts) eqn:Hg.
    - intros y Hy. eapply inv_members; eauto.
    - simpl. contradiction. }
  assert (Hpr : prod_nullable_in pr).
  { intros e He. rewrite is_prod_nullable_spec in Hn.
    destruct (Hn e He) as [nt [-> Hc]]. exists nt. split; [reflexivity|].
    eapply inv_keys; eauto. }
  destruct (prodset_insert pr (nullable_actions info)) as [[|] acts] eqn:Ei;
    simpl; [|exact Hinv].
  destruct (prodset_insert_true_new _ _ _ Hinfo_sorted Ei) as [Hin _].
  constructor.
  - intros h Hc. apply map_contains_get in Hc as [v Hv].
    rewrite map_get_insert in Hv. destruct (Nat.eqb_spec h (pr_head pr)).
    + subst. now apply nullable_in_intro'.
    + eapply inv_keys; [exact Hinv|]. apply map_contains_get. eauto.
  - intros h i Hi. rewrite map_get_insert in Hi.
    destruct (Nat.eqb_spec h (pr_head pr)).
    + inversion Hi; subst. simpl.
      change acts with (snd (true, acts)). rewrite <- Ei.
      now apply prodset_insert_sorted.
    + eapply inv_sorted; eauto.
  - rewrite Forall_forall. intros [h i] Hhi.
    apply in_map_insert in Hhi as [Heq|Hhi].
    + inversion Heq; subst. simpl. intros Hnil. rewrite Hnil in Hin. contradiction.
    + pose proof (inv_nonempty _ Hinv) as Hne. rewrite Forall_forall in Hne.
      exact (Hne _ Hhi).
  - intros h i y Hi Hy. rewrite map_get_insert in Hi.
    destruct (Nat.eqb_spec h (pr_head pr)).
    + inversion Hi; subst. simpl in Hy.
      change acts with (snd (true, acts)) in Hy. rewrite <- Ei in Hy.
      apply prodset_insert_In in Hy as [->|Hy]; [auto|].
      now apply Hinfo_mem.
    + eapply inv_members; eauto.
  - apply map_insert_sorted. eapply inv_keys_sorted; eauto.
Qed.

Lemma pass1_visit_changed (nts : NullableMap) (c : bool) (pr : ProdRef) :
  pass1_inv nts ->
  snd (pass1_visit (nts, c) pr) = true ->
  c = true \/ (recordedb (fst (pass1_visit (nts, c) pr)) pr = true
               /\ recordedb nts pr = false).
Proof.
  intros Hinv. unfold pass1_visit.
  destruct (is_prod_nullable nts pr) eqn:Hn; [|simpl; auto].
  destruct (map_get (pr_head pr) nts) as [info|] eqn:Hg;
    destruct (prodset_insert pr _) as [[|] acts] eqn:Ei; simpl; auto; intros _;
    right.
  - assert (Hs : prodset_sorted (nullable_actions info)) by (eapply inv_sorted; eauto).
    destruct (prodset_insert_true_new _ _ _ Hs Ei) as [Hin Hnew].
    split.
    + apply recordedb_spec. exists {| nullable_actions := acts |}, pr.
      rewrite map_get_insert_same. repeat split; [exact Hin|].
      apply prodref_order_Eq. auto.
    + apply Bool.not_true_iff_false. rewrite recordedb_spec.
      intros [i [y [Hi [Hy Ho]]]]. rewrite Hg in Hi. inversion Hi; subst.
      exact (Hnew y Hy Ho).
  - simpl in Ei. inversion Ei; subst. split.
    + apply recordedb_spec. exists {| nullable_actions := [pr] |}, pr.
      rewrite map_get_insert_same. repeat split; [left; reflexivity|].
      apply prodref_order_Eq. auto.
    + unfold recordedb. now rewrite Hg.
Qed.

Lemma pass1_visit_unchanged (nts : NullableMap) (pr : ProdRef) :
  snd (pass1_visit (nts, false) pr) = false ->
  fst (pass1_visit (nts, false) pr) = nts
  /\ (is_prod_nullable nts pr = true -> recordedb nts pr = true).
Proof.
  unfold pass1_visit.
  destruct (is_prod_nullable nts pr) eqn:Hn; [|simpl; split; auto; discriminate].
  destruct (map_get (pr_head pr) nts) as [info|] eqn:Hg;
    destruct (prodset_insert pr _) as [[|] acts] eqn:Ei; simpl; try discriminate.
  - intros _. split; [reflexivity|]. intros _.
    apply prodset_insert_false in Ei as [_ [y [Hy Ho]]].
    apply recordedb_spec. exists info, y. auto.
Qed.

Lemma pass1_visit_true (nts : NullableMap) (pr : ProdRef) :
  snd (pass1_visit (nts, true) pr) = true.
Proof.
  unfold pass1_visit. destruct (is_prod_nullable nts pr); [|reflexivity].
  destruct (prodset_insert pr _) as [[|] acts]; reflexivity.
Qed.

Lemma fold_visit_true (l : list ProdRef) (nts : NullableMap) :
  snd (fold_left pass1_visit l (nts, true)) = true.
Proof.
  revert nts. induction l as [|pr l IH]; intros nts ; cbn [fold_left]; [reflexivity|].
  destruct (pass1_visit (nts, true) pr) as [nts1 c1] eqn:E.
  pose proof (pass1_visit_true nts pr) as Ht. rewrite E in Ht. simpl in Ht.
  subst. apply IH.
Qed.

Lemma fold_visit_inv (l : list ProdRef) (nts : NullableMap) (c : bool) :
  pass1_inv nts -> (forall q, In q l -> In q P) ->
  pass1_inv (fst (fold_left pass1_visit l (nts, c))).
Proof.
  revert nts c. induction l as [|pr l IH]; intros nts c Hinv Hl ; cbn [fold_left]; [exact Hinv|].
  destruct (pass1_visit (nts, c) pr) as [nts1 c1] eqn:E.
  apply IH; [|intros q Hq; apply Hl; now right].
  change nts1 with (fst (nts1, c1)). rewrite <- E.
  apply pass1_visit_inv; [exact Hinv|apply Hl; now left].
Qed.

Lemma fold_visit_mono (l : list ProdRef) (nts : NullableMap) (c : bool) (q : ProdRef) :
  recordedb nts q = true -> recordedb (fst (fold_left pass1_visit l (nts, c))) q = true.
Proof.
  revert nts c. induction l as [|pr l IH]; intros nts c Hq ; cbn [fold_left]; [exact Hq|].
  destruct (pass1_visit (nts, c) pr) as [nts1 c1] eqn:E.
  apply IH. change nts1 with (fst (nts1, c1)). rewrite <- E.
  now apply pass1_visit_mono.
Qed.

Lemma fold_visit_changed (l : list ProdRef) (nts : NullableMap) (c : bool) :
  pass1_inv nts -> (forall q, In q l -> In q P) ->
  snd (fold_left pass1_visit l (nts, c)) = true ->
  c = true \/ exists q, In q l
                        /\ recordedb (fst (fold_left pass1_visit l (nts, c))) q = true
                        /\ recordedb nts q = false.
Proof.
  revert nts c. induction l as [|pr l IH]; intros nts c Hinv Hl Hch; cbn [fold_left] in *; [auto|].
  destruct (pass1_visit (nts, c) pr) as [nts1 c1] eqn:E.
  assert (Hinv1 : pass1_inv nts1).
  { change nts1 with (fst (nts1, c1)). rewrite <- E.
    apply pass1_visit_inv; [exact Hinv|apply Hl; now left]. }
  destruct (IH nts1 c1 Hinv1 (fun q Hq => Hl q (or_intror Hq)) Hch)
    as [Hc1|[q [Hq [Hq1 Hq0]]]].
  - subst c1. pose proof (pass1_visit_changed nts c pr Hinv) as Hv.
    rewrite E in Hv. destruct (Hv eq_refl) as [Hc|[Hr1 Hr0]]; [auto|].
    right. exists pr. split; [now left|]. split; [|exact Hr0].
    now apply fold_visit_mono.
  - right. exists q. split; [now right|]. split; [exact Hq1|].
    apply Bool.not_true_iff_false. intros Hr.
    assert (recordedb nts1 q = true) as Hr1.
    { change nts1 with (fst (nts1, c1)). rewrite <- E. now apply pass1_visit_mono. }
    congruence.
Qed.

Lemma fold_visit_unchanged (l : list ProdRef) (nts : NullableMap) :
  snd (fold_left pass1_visit l (nts, false)) = false ->
  fst (fold_left pass1_visit l (nts, false)) = nts
  /\ forall q, In q l -> is_prod_nullable nts q = true -> recordedb nts q = true.
Proof.
  revert nts. induction l as [|pr l IH]; intros nts Hch; cbn [fold_left] in *.
  - split; [reflexivity|contradiction].
  - destruct (pass1_visit (nts, false) pr) as [nts1 c1] eqn:E.
    destruct c1.
    + rewrite fold_visit_true in Hch. discriminate.
    + pose proof (pass1_visit_unchanged nts pr) as Hv. rewrite E in Hv.
      destruct (Hv eq_refl) as [Hn1 Hpr]. simpl in Hn1. subst nts1.
      destruct (IH nts Hch) as [Hfix Hall]. split; [exact Hfix|].
      intros q [<-|Hq]; auto.
Qed.

(** The termination measure of pass 1: the productions already recorded. *)
Definition recorded_count (nts : NullableMap) : nat :=
  length (filter (recordedb nts) P).

Lemma filter_length_lt {A : Type} (f f' : A -> bool) (l : list A) :
  (forall x, f x = true -> f' x = true) ->
  (exists x, In x l /\ f' x = true /\ f x = false) ->
  length (filter f l) < length (filter f' l).
Proof.
  intros Hmono. induction l as [|y l IH]; simpl; intros [x [Hx [H1 H0]]]; [contradiction|].
  assert (Hle : forall l', length (filter f l') <= length (filter f' l')).
  { induction l' as [|z l' IH']; simpl; [lia|].
    destruct (f z) eqn:Hz; [rewrite (Hmono z Hz); simpl; lia|].
    destruct (f' z); simpl; lia. }
  destruct Hx as [<-|Hx].
  - rewrite H0, H1. simpl. specialize (Hle l). lia.
  - assert (IH' := IH (ex_intro _ x (conj Hx (conj H1 H0)))).
    destruct (f y) eqn:Hy; [rewrite (Hmono y Hy); simpl; lia|].
    destruct (f' y); simpl; lia.
Qed.

Lemma inner_loop_spec (fuel : nat) (nts : NullableMap) :
  pass1_inv nts -> length P - recorded_count nts < fuel ->
  exists r, inner_loop fuel P nts = Some r /\ pass1_inv r /\ closed r.
Proof.
  revert nts. induction fuel as [|fuel IH]; intros nts Hinv Hfuel; [lia|].
  simpl. unfold pass1_round.
  destruct (fold_left pass1_visit P (nts, false)) as [nts' ch] eqn:E.
  destruct ch.
  - assert (Hinv' : pass1_inv nts').
    { change nts' with (fst (nts', true)). rewrite <- E.
      apply fold_visit_inv; auto. }
    apply IH; [exact Hinv'|].
    pose proof (fold_visit_changed P nts false Hinv (fun q Hq => Hq)) as Hc.
    rewrite E in Hc. destruct (Hc eq_refl) as [Hf|Hex]; [discriminate|].
    assert (Hlt : recorded_count nts < recorded_count nts').
    { unfold recorded_count. apply filter_length_lt; [|exact Hex].
      intros q Hq. change nts' with (fst (nts', true)). rewrite <- E.
      now apply fold_visit_mono. }
    assert (recorded_count nts' <= length P).
    { unfold recorded_count. pose proof (filter_length (recordedb nts') P). lia. }
    lia.
  - pose proof (fold_visit_unchanged P nts) as Hu. rewrite E in Hu.
    destruct (Hu eq_refl) as [Hfix Hall]. simpl in Hfix. subst nts'.
    exists nts. split; [reflexivity|]. split; [exact Hinv|]. exact Hall.
Qed.

Lemma pass1_inv_nil : pass1_inv [].
Proof.
  constructor; simpl; try discriminate; auto. constructor.
Qed.

Lemma inner_calculate_nullables_from_spec :
  exists r, inner_calculate_nullables_from P = Some r /\ pass1_inv r /\ closed r.
Proof.
  apply inner_loop_spec; [exact pass1_inv_nil|]. lia.
Qed.

(** Soundness and completeness of a closed invariant map. *)
Lemma closed_complete (r : NullableMap) :
  closed r -> forall nt, nullable_in nt -> map_contains nt r = true.
Proof.
  intros Hcl nt H. induction H as [pr HP Hall Hnt IH].
  assert (Hrec : recordedb r pr = true).
  { apply Hcl; [exact HP|]. apply is_prod_nullable_spec.
    intros e He. destruct (Hall e He) as [nt ->]. exists nt. split; auto. }
  apply recordedb_spec in Hrec as [info [y [Hi _]]].
  apply map_contains_get. eauto.
Qed.

Lemma closed_recorded (r : NullableMap) (q : ProdRef) :
  closed r -> In q P -> prod_nullable_in q -> recordedb r q = true.
Proof.
  intros Hcl HP Hq. apply Hcl; [exact HP|]. apply is_prod_nullable_spec.
  intros e He. destruct (Hq e He) as [nt [-> Hnt]]. exists nt. split; auto.
  now apply (closed_complete r Hcl).
Qed.

End Pass1.

(* ------------------------------------------------------------------ *)
(** ** Nullability read off the grammar's rules *)

Lemma in_combine_seq {A : Type} (l : list A) (x : A) (s : nat) :
  In x l -> exists i, In (i, x) (combine (seq s (length l)) l).
Proof.
  revert s. induction l as [|y l IH]; simpl; intros s Hx; [contradiction|].
  destruct Hx as [<-|Hx].
  - exists s. now left.
  - destruct (IH (S s) Hx) as [i Hi]. exists i. now right.
Qed.

Lemma prod_views_In (g : Grammar) (pr : ProdRef) :
  In pr (prod_views g) ->
  exists r, In (pr_head pr, r) (rule_set g) /\ In (pr_prod pr) (prods r).
Proof.
  unfold prod_views. rewrite in_flat_map. intros [[h r] [Hr Hpr]].
  apply in_map_iff in Hpr as [[i p] [<- Hip]]. simpl.
  exists r. split; [exact Hr|]. now apply in_combine_r in Hip.
Qed.

Lemma prod_views_complete (g : Grammar) (h : NonTerm) (r : Rule) (p : Production) :
  In (h, r) (rule_set g) -> In p (prods r) ->
  exists pr, In pr (prod_views g) /\ pr_head pr = h /\ pr_prod pr = p.
Proof.
  intros Hr Hp. destruct (in_combine_seq (prods r) p 0 Hp) as [i Hi].
  eexists. split.
  - unfold prod_views. apply in_flat_map. exists (h, r). split; [exact Hr|].
    apply in_map_iff. exists (i, p). split; [reflexivity|exact Hi].
  - simpl. auto.
Qed.

Lemma derives_empty_nullable_in (g : Grammar) (nt : NonTerm) :
  derives_empty g nt <-> nullable_in (prod_views g) nt.
Proof.
  split.
  - intros H. induction H as [nt r p Hr Hp Hall Hnt IH].
    destruct (prod_views_complete g nt r p Hr Hp) as [pr [Hin [<- <-]]].
    apply nullable_in_intro; auto.
  - intros H. induction H as [pr HP Hall Hnt IH].
    destruct (prod_views_In g pr HP) as [r [Hr Hp]].
    eapply derives_empty_intro; eauto.
Qed.

(* ------------------------------------------------------------------ *)
(** ** The sanity check and the action map *)

Definition singleton_entry (e : NonTerm * InternalNullableInfo) : Prop :=
  exists p, nullable_actions (snd e) = [p].

Lemma sanity_check_ok (l : NullableMap) :
  sanity_check l = ROk tt <-> Forall singleton_entry l.
Proof.
  induction l as [|[nt info] l IH]; simpl.
  - split; auto.
  - destruct (nullable_actions info) as [|p [|q r]] eqn:Ha.
    + split; [discriminate|]. intros H. inversion H as [|x y [p Hp] _]; subst.
      simpl in Hp. congruence.
    + rewrite IH. split.
      * intros H. constructor; [exists p; exact Ha|exact H].
      * intros H. now inversion H.
    + split; [discriminate|]. intros H. inversion H as [|x y [p' Hp] _]; subst.
      simpl in Hp. congruence.
Qed.

Lemma sanity_check_cases (l : NullableMap) :
  Forall (fun hv => nullable_actions (snd hv) <> []) l ->
  (sanity_check l = ROk tt /\ Forall singleton_entry l)
  \/ (sanity_check l = RNullableAmbiguity
      /\ exists e, In e l /\ 2 <= length (nullable_actions (snd e))).
Proof.
  induction l as [|[nt info] l IH]; simpl; intros Hne.
  - left. split; [reflexivity|constructor].
  - inversion Hne as [|x y Hx Hl]; subst. simpl in Hx.
    destruct (nullable_actions info) as [|p [|q r]] eqn:Ha; [congruence| |].
    + destruct (IH Hl) as [[Hok Hall]|[Hamb [e [He Hlen]]]].
      * left. split; [exact Hok|]. constructor; [exists p; exact Ha|exact Hall].
      * right. split; [exact Hamb|]. exists e. auto.
    + right. split; [reflexivity|]. exists (nt, info). simpl. rewrite Ha. simpl.
      split; [auto|lia].
Qed.

Lemma build_action_map_spec (l : NullableMap) (acc : list (NonTerm * ProdRef)) :
  Forall singleton_entry l -> NoDup (map fst l) ->
  exists amap, build_action_map l acc = ROk amap /\
    forall h, map_get h amap = match map_get h l with
                               | Some info => hd_error (nullable_actions info)
                               | None => map_get h acc
                               end.
Proof.
  revert acc. induction l as [|[nt info] l IH]; simpl; intros acc Hs Hnd.
  - exists acc. auto.
  - inversion Hs as [|x y [p Hp] Hs']; subst. simpl in Hp.
    inversion Hnd as [|x y Hnin Hnd']; subst.
    rewrite Hp. simpl.
    destruct (IH (map_insert nt p acc) Hs' Hnd') as [amap [Hb Hg]].
    exists amap. split; [exact Hb|]. intros h. rewrite Hg.
    destruct (Nat.eqb_spec h nt).
    + subst. rewrite Hp. simpl.
      destruct (map_get nt l) eqn:Hl.
      * exfalso. apply Hnin. apply map_get_In in Hl.
        apply in_map_iff. eexists. split; [|exact Hl]. reflexivity.
      * apply map_get_insert_same.
    + destruct (map_get h l); [reflexivity|]. now apply map_get_insert_other.
Qed.

(* ------------------------------------------------------------------ *)
(** ** Pass 2: witness construction *)

Definition infos_extend (I I' : InfoMap) : Prop :=
  forall h T, map_get h I = Some T -> map_get h I' = Some T.

(** Every named nonterminal element of [p] has its tree built in [I]. *)
Definition deps_built (I : InfoMap) (p : ProdRef) : Prop :=
  forall id nt, In (mkProductionElement (Some id) (ENonTerm nt)) (elements (pr_prod p)) ->
                map_contains nt I = true.

Lemma build_fields_mono (I I' : InfoMap) (elems : list ProductionElement) F F' :
  infos_extend I I' -> build_fields I elems F = Some F' -> build_fields I' elems F = Some F'.
Proof.
  intros Hext. revert F. induction elems as [|pe elems IH]; simpl; intros F H; [exact H|].
  destruct pe as [[id|] [t|nt]]; simpl in *; auto.
  destruct (map_get nt I) as [s|] eqn:Hg; [|discriminate].
  rewrite (Hext _ _ Hg). now apply IH.
Qed.

Lemma build_fields_some (I : InfoMap) (elems : list ProductionElement) F :
  (forall id nt, In (mkProductionElement (Some id) (ENonTerm nt)) elems ->
                 map_contains nt I = true) ->
  exists F', build_fields I elems F = Some F'.
Proof.
  revert F. induction elems as [|pe elems IH]; simpl; intros F H; [eauto|].
  destruct pe as [[id|] [t|nt]]; simpl in *;
    try (apply IH; intros i0 n0 Hin; exact (H i0 n0 (or_intror Hin))).
  assert (Hc : map_contains nt I = true) by (apply (H id); now left).
  apply map_contains_get in Hc as [s Hs]. rewrite Hs.
  apply IH. intros i0 n0 Hin. exact (H i0 n0 (or_intror Hin)).
Qed.

Lemma build_fields_ext (I I' : InfoMap) (elems : list ProductionElement) F :
  (forall id nt, In (mkProductionElement (Some id) (ENonTerm nt)) elems ->
                 map_get nt I = map_get nt I') ->
  build_fields I elems F = build_fields I' elems F.
Proof.
  revert F. induction elems as [|pe elems IH]; simpl; intros F H; [reflexivity|].
  destruct pe as [[id|] [t|nt]]; simpl in *;
    try (apply IH; intros i0 n0 Hin; exact (H i0 n0 (or_intror Hin))).
  rewrite (H id nt (or_introl eq_refl)).
  destruct (map_get nt I'); [|reflexivity].
  apply IH. intros i0 n0 Hin. exact (H i0 n0 (or_intror Hin)).
Qed.

Lemma map_insert_extend (h : NonTerm) (T : NonTermNullableInfo) (I : InfoMap) :
  map_contains h I = false -> infos_extend I (map_insert h T I).
Proof.
  intros Hc k T' Hk. rewrite map_get_insert. destruct (Nat.eqb_spec k h); [|exact Hk].
  subst. unfold map_contains in Hc. rewrite Hk in Hc. discriminate.
Qed.

Section Pass2.
Variable inner_info : NullableMap.
Variable amap : list (NonTerm * ProdRef).

Hypothesis amap_total : forall h, map_contains h inner_info = true -> exists p, map_get h amap = Some p.

Record tree_inv (I : InfoMap) : Prop := {
  ti_keys : forall h, map_contains h I = true -> map_contains h inner_info = true;
  ti_trees : forall h T, map_get h I = Some T ->
    exists p F, map_get h amap = Some p
                /\ build_fields I (elements (pr_prod p)) [] = Some F
                /\ T = {| nullable_action := mkTreeNode (prod_key p) F |}
}.

Lemma tree_inv_extend (I I' : InfoMap) (h : NonTerm) (T : NonTermNullableInfo) :
  tree_inv I -> map_contains h I = false -> map_contains h inner_info = true ->
  I' = map_insert h T I ->
  (exists p F, map_get h amap = Some p
               /\ build_fields I (elements (pr_prod p)) [] = Some F
               /\ T = {| nullable_action := mkTreeNode (prod_key p) F |}) ->
  tree_inv I'.
Proof.
  intros Hinv Hh HS -> Hnew. pose proof (map_insert_extend h T I Hh) as Hext.
  constructor.
  - intros k Hk. apply map_contains_get in Hk as [v Hv]. rewrite map_get_insert in Hv.
    destruct (Nat.eqb_spec k h); [now subst|].
    apply (ti_keys _ Hinv). apply map_contains_get. eauto.
  - intros k T' Hk. rewrite map_get_insert in Hk. destruct (Nat.eqb_spec k h).
    + inversion Hk; subst. destruct Hnew as [p [F [Hp [Hb HT]]]].
      exists p, F. repeat split; auto. eapply build_fields_mono; eauto.
    + destruct (ti_trees _ Hinv k T' Hk) as [p [F [Hp [Hb HT]]]].
      exists p, F. repeat split; auto. eapply build_fields_mono; eauto.
Qed.

Lemma contains_extend (I I' : InfoMap) (h : NonTerm) :
  infos_extend I I' -> map_contains h I = true -> map_contains h I' = true.
Proof.
  intros Hext Hc. apply map_contains_get in Hc as [v Hv].
  apply map_contains_get. exists v. now apply Hext.
Qed.

Lemma pass2_pass_spec (rem : list NonTerm) (I : InfoMap) :
  tree_inv I -> NoDup rem ->
  (forall h, In h rem -> map_contains h inner_info = true /\ map_contains h I = false) ->
  exists I', pass2_pass amap rem I = ROk I' /\ tree_inv I' /\ infos_extend I I'
    /\ (forall h, map_contains h I' = true -> map_contains h I = true \/ In h rem)
    /\ (forall h p, In h rem -> map_get h amap = Some p -> deps_built I p ->
                    map_contains h I' = true).
Proof.
  revert I. induction rem as [|h rest IH]; intros I Hinv Hnd Hrem; simpl.
  - exists I. split; [reflexivity|]. split; [exact Hinv|]. split; [intros k T Hk; exact Hk|].
    split; [auto|]. intros k q [].
  - inversion Hnd as [|x y Hnin Hnd']; subst.
    destruct (Hrem h (or_introl eq_refl)) as [HS HI].
    destruct (amap_total h HS) as [p Hp]. rewrite Hp.
    destruct (build_fields I (elements (pr_prod p)) []) as [F|] eqn:Hb.
    + set (I1 := map_insert h {| nullable_action := mkTreeNode (prod_key p) F |} I).
      assert (Hext1 : infos_extend I I1) by (now apply map_insert_extend).
      assert (Hinv1 : tree_inv I1).
      { apply (tree_inv_extend I I1 h _ Hinv HI HS eq_refl). exists p, F. auto. }
      assert (Hrem1 : forall h', In h' rest ->
                      map_contains h' inner_info = true /\ map_contains h' I1 = false).
      { intros h' Hh'. destruct (Hrem h' (or_intror Hh')) as [HS' HI'].
        split; [exact HS'|]. unfold I1, map_contains. rewrite map_get_insert_other.
        - exact HI'.
        - intros ->. contradiction. }
      destruct (IH I1 Hinv1 Hnd' Hrem1) as [I' [Hrun [Hinv' [Hext' [Hkeys Hprog]]]]].
      exists I'. split; [exact Hrun|]. split; [exact Hinv'|]. split.
      { intros k T Hk. apply Hext'. now apply Hext1. }
      split.
      * intros k Hk. destruct (Hkeys k Hk) as [Hk1|Hk1]; [|auto].
        apply map_contains_get in Hk1 as [v Hv]. unfold I1 in Hv.
        rewrite map_get_insert in Hv. destruct (Nat.eqb_spec k h); [auto|].
        left. apply map_contains_get. eauto.
      * intros k q [<-|Hk] Hq Hdeps.
        -- apply (contains_extend I1 I' h Hext'). unfold I1, map_contains.
           now rewrite map_get_insert_same.
        -- apply (Hprog k q Hk Hq). intros id nt Hin.
           exact (contains_extend I I1 nt Hext1 (Hdeps id nt Hin)).
    + destruct (IH I Hinv Hnd' (fun h' Hh' => Hrem h' (or_intror Hh')))
        as [I' [Hrun [Hinv' [Hext' [Hkeys Hprog]]]]].
      exists I'. split; [exact Hrun|]. split; [exact Hinv'|]. split; [exact Hext'|].
      split.
      * intros k Hk. destruct (Hkeys k Hk); auto.
      * intros k q [<-|Hk] Hq Hdeps; [|eauto].
        rewrite Hp in Hq. inversion Hq; subst.
        destruct (build_fields_some I (elements (pr_prod q)) [] Hdeps) as [F' HF'].
        congruence.
Qed.

Lemma remove_built_filter (I : InfoMap) (rem : list NonTerm) :
  remove_built I rem = filter (fun y => negb (map_contains y I)) rem.
Proof.
  unfold remove_built.
  assert (G : forall ks r, fold_left (fun s nt => set_remove nt s) ks r
                           = filter (fun y => negb (existsb (Nat.eqb y) ks)) r).
  { induction ks as [|k ks IHk]; intros r; simpl.
    - induction r as [|y r IHr]; simpl; [reflexivity|]. f_equal. exact IHr.
    - rewrite IHk. unfold set_remove. induction r as [|y r IHr]; simpl; [reflexivity|].
      destruct (Nat.eqb y k); simpl; [exact IHr|].
      destruct (existsb (Nat.eqb y) ks); simpl; [exact IHr|]. f_equal. exact IHr. }
  rewrite G. apply filter_ext. intros y. f_equal.
  apply Bool.eq_iff_eq_true. rewrite existsb_exists, map_contains_get, <- map_get_keys.
  split.
  - intros [k [Hk Heq]]. apply Nat.eqb_eq in Heq. now subst.
  - intros Hy. exists y. split; [exact Hy|apply Nat.eqb_refl].
Qed.

Lemma pass2_loop_correct (fuel : nat) (rem : list NonTerm) (I r : InfoMap) :
  tree_inv I -> NoDup rem ->
  (forall h, In h rem <-> map_contains h inner_info = true /\ map_contains h I = false) ->
  pass2_loop fuel amap rem I = ROk r ->
  tree_inv r /\ forall h, map_contains h inner_info = true -> map_contains h r = true.
Proof.
  revert rem I. induction fuel as [|fuel IH]; intros rem I Hinv Hnd Hrem Hrun;
    simpl in Hrun; [discriminate|].
  destruct (pass2_pass_spec rem I Hinv Hnd (fun h Hh => proj1 (Hrem h) Hh))
    as [I' [Hp [Hinv' [Hext [Hkeys _]]]]].
  rewrite Hp in Hrun. simpl in Hrun.
  assert (Hrem' : forall h, In h (remove_built I' rem) <->
                  map_contains h inner_info = true /\ map_contains h I' = false).
  { intros h. rewrite remove_built_filter, filter_In, Hrem, Bool.negb_true_iff.
    split.
    - intros [[HS _] HI']. auto.
    - intros [HS HI']. split; [|exact HI']. split; [exact HS|].
      destruct (map_contains h I) eqn:HI; [|reflexivity].
      rewrite (contains_extend I I' h Hext HI) in HI'. discriminate. }
  destruct (remove_built I' rem) as [|h0 rem'] eqn:Hrb.
  - inversion Hrun; subst. split; [exact Hinv'|]. intros h HS.
    destruct (map_contains h r) eqn:Hr; [reflexivity|].
    exfalso. apply (proj2 (Hrem' h)). auto.
  - rewrite <- Hrb in Hrun, Hrem'. apply (IH (remove_built I' rem) I' Hinv'); auto.
    rewrite remove_built_filter. now apply NoDup_filter.
Qed.

(** Pass 2 makes progress when some unbuilt nonterminal has all its named
    dependencies built. *)
Definition pass2_progress : Prop :=
  forall I, tree_inv I ->
    (exists h, map_contains h inner_info = true /\ map_contains h I = false) ->
    exists h p, map_contains h inner_info = true /\ map_contains h I = false
                /\ map_get h amap = Some p /\ deps_built I p.

Lemma pass2_loop_terminates (fuel : nat) (rem : list NonTerm) (I : InfoMap) :
  pass2_progress -> tree_inv I -> NoDup rem ->
  (forall h, In h rem <-> map_contains h inner_info = true /\ map_contains h I = false) ->
  length rem < fuel ->
  exists r, pass2_loop fuel amap rem I = ROk r.
Proof.
  intros Hprog. revert rem I.
  induction fuel as [|fuel IH]; intros rem I Hinv Hnd Hrem Hlen; [lia|]. simpl.
  destruct (pass2_pass_spec rem I Hinv Hnd (fun h Hh => proj1 (Hrem h) Hh))
    as [I' [Hp [Hinv' [Hext [Hkeys Hpr]]]]].
  rewrite Hp. simpl.
  assert (Hrem' : forall h, In h (remove_built I' rem) <->
                  map_contains h inner_info = true /\ map_contains h I' = false).
  { intros h. rewrite remove_built_filter, filter_In, Hrem, Bool.negb_true_iff.
    split.
    - intros [[HS _] HI']. auto.
    - intros [HS HI']. split; [|exact HI']. split; [exact HS|].
      destruct (map_contains h I) eqn:HI; [|reflexivity].
      rewrite (contains_extend I I' h Hext HI) in HI'. discriminate. }
  destruct (remove_built I' rem) as [|h0 rem'] eqn:Hrb; [eauto|].
  rewrite <- Hrb in Hrem' |- *. apply IH; auto.
  - rewrite remove_built_filter. now apply NoDup_filter.
  - assert (Hin0 : In h0 rem).
    { assert (In h0 (remove_built I' rem)) as H0 by (rewrite Hrb; now left).
      rewrite remove_built_filter, filter_In in H0. tauto. }
    destruct (Hprog I Hinv (ex_intro _ h0 (proj1 (Hrem h0) Hin0)))
      as [h [p [HS [HI [Hap Hdeps]]]]].
    assert (Hh : In h rem) by (apply Hrem; auto).
    pose proof (Hpr h p Hh Hap Hdeps) as HI'.
    rewrite remove_built_filter.
    assert (length (filter (fun y => negb (map_contains y I')) rem)
            < length (filter (fun _ => true) rem)).
    { apply filter_length_lt; [auto|]. exists h. rewrite HI'. auto. }
    assert (Ft : forall l : list NonTerm, filter (fun _ => true) l = l).
    { induction l as [|x l IHl]; simpl; congruence. }
    rewrite (Ft rem) in H. eapply Nat.lt_le_trans; [exact H|lia].
Qed.

End Pass2.

(* ------------------------------------------------------------------ *)
(** ** The engine end to end *)

Section Engine.
Variable P : list ProdRef.

Definition remaining0 (inner : NullableMap) : list NonTerm :=
  set_of_list (map_keys inner).

Lemma calculate_nullables_from_cases :
  exists inner, inner_calculate_nullables_from P = Some inner
    /\ pass1_inv P inner /\ closed P inner
    /\ ((calculate_nullables_from P = RNullableAmbiguity
         /\ exists e, In e inner /\ 2 <= length (nullable_actions (snd e)))
        \/ (Forall singleton_entry inner
            /\ exists amap,
                 (forall h, map_get h amap = match map_get h inner with
                                             | Some info => hd_error (nullable_actions info)
                                             | None => None
                                             end)
                 /\ calculate_nullables_from P
                    = pass2_loop (Datatypes.S (length (remaining0 inner)))
                        amap (remaining0 inner) [])).
Proof.
  destruct (inner_calculate_nullables_from_spec P) as [inner [Hin [Hinv Hcl]]].
  exists inner. split; [exact Hin|]. split; [exact Hinv|]. split; [exact Hcl|].
  unfold calculate_nullables_from. rewrite Hin. simpl.
  destruct (sanity_check_cases inner (inv_nonempty _ _ Hinv))
    as [[Hok Hall]|[Hamb Hex]].
  - right. split; [exact Hall|]. rewrite Hok. simpl.
    destruct (build_action_map_spec inner [] Hall
                (map_sorted_NoDup _ (inv_keys_sorted _ _ Hinv)))
      as [amap [Hb Hg]].
    exists amap. split.
    + intros h. rewrite Hg. destruct (map_get h inner); reflexivity.
    + rewrite Hb. reflexivity.
  - left. rewrite Hamb. simpl. auto.
Qed.

Lemma singleton_lookup (inner : NullableMap) (h : NonTerm) (info : InternalNullableInfo) :
  Forall singleton_entry inner -> map_get h inner = Some info ->
  exists p, nullable_actions info = [p].
Proof.
  intros Hall Hg. apply map_get_In in Hg. rewrite Forall_forall in Hall.
  exact (Hall _ Hg).
Qed.

Lemma pass2_loop_not_ambiguous (fuel : nat) amap rem I :
  pass2_loop fuel amap rem I <> RNullableAmbiguity.
Proof.
  revert rem I. induction fuel as [|fuel IH]; intros rem I; simpl; [discriminate|].
  assert (Hp : forall rem' I', pass2_pass amap rem' I' <> RNullableAmbiguity).
  { induction rem' as [|h rest IHr]; intros I'; simpl; [discriminate|].
    destruct (map_get h amap); [|discriminate].
    destruct (build_fields _ _ _); apply IHr. }
  destruct (pass2_pass amap rem I) eqn:E; simpl; try discriminate.
  - destruct (remove_built a rem); [discriminate|apply IH].
  - exfalso. exact (Hp rem I E).
Qed.

(** The unique nullable production of [h], in the view order. *)
Definition unique_nullable_prod (h : NonTerm) (p : ProdRef) : Prop :=
  In p P /\ pr_head p = h /\ prod_nullable_in P p
  /\ forall q, In q P -> pr_head q = h -> prod_nullable_in P q -> prodref_order q p = Eq.

Lemma amap_unique (inner : NullableMap) amap (h : NonTerm) (p : ProdRef) :
  pass1_inv P inner -> closed P inner -> Forall singleton_entry inner ->
  (forall h, map_get h amap = match map_get h inner with
                              | Some info => hd_error (nullable_actions info)
                              | None => None
                              end) ->
  map_get h amap = Some p -> unique_nullable_prod h p.
Proof.
  intros Hinv Hcl Hall Hg Hp. rewrite Hg in Hp.
  destruct (map_get h inner) as [info|] eqn:Hi; [|discriminate].
  destruct (singleton_lookup inner h info Hall Hi) as [p' Hp'].
  rewrite Hp' in Hp. simpl in Hp. inversion Hp; subst p'.
  destruct (inv_members _ _ Hinv h info p Hi (ltac:(rewrite Hp'; now left)))
    as [HP [Hh Hn]].
  split; [exact HP|]. split; [exact Hh|]. split; [exact Hn|].
  intros q Hq Hqh Hqn. pose proof (closed_recorded P inner q Hcl Hq Hqn) as Hr.
  apply recordedb_spec in Hr as [i [y [Hiq [Hy Ho]]]].
  rewrite Hqh, Hi in Hiq. inversion Hiq; subst i.
  rewrite Hp' in Hy. destruct Hy as [<-|[]]. exact Ho.
Qed.

(** What [calculate_nullables] returns when it succeeds. *)
Lemma calculate_nullables_from_ok (r : InfoMap) :
  calculate_nullables_from P = ROk r ->
  (forall h, map_contains h r = true <-> nullable_in P h)
  /\ forall h T, map_get h r = Some T ->
       exists p F, unique_nullable_prod h p
                   /\ build_fields r (elements (pr_prod p)) [] = Some F
                   /\ T = {| nullable_action := mkTreeNode (prod_key p) F |}.
Proof.
  intros Hr.
  destruct calculate_nullables_from_cases
    as [inner [Hin [Hinv [Hcl [[Hamb _]|[Hall [amap [Hg Hrun]]]]]]]];
    [congruence|].
  rewrite Hrun in Hr.
  assert (Htot : forall h, map_contains h inner = true ->
                           exists p, map_get h amap = Some p).
  { intros h Hc. apply map_contains_get in Hc as [info Hi].
    destruct (singleton_lookup inner h info Hall Hi) as [p Hp].
    exists p. rewrite Hg, Hi, Hp. reflexivity. }
  assert (Hti0 : tree_inv inner amap []).
  { constructor; simpl; [discriminate|discriminate]. }
  assert (Hrem0 : forall h, In h (remaining0 inner) <->
                  map_contains h inner = true /\ map_contains h (@nil (NonTerm * NonTermNullableInfo)) = false).
  { intros h. unfold remaining0. rewrite set_of_list_In, map_get_keys, <- map_contains_get.
    simpl. unfold map_contains. simpl. intuition. }
  destruct (pass2_loop_correct inner amap Htot _ _ [] r Hti0 (set_of_list_NoDup _)
              Hrem0 Hr) as [Hti Hall_built].
  split.
  - intros h. split.
    + intros Hc. apply (inv_keys _ _ Hinv). exact (ti_keys _ _ _ Hti h Hc).
    + intros Hn. apply Hall_built. exact (closed_complete P inner Hcl h Hn).
  - intros h T HT. destruct (ti_trees _ _ _ Hti h T HT) as [p [F [Hp [Hb HTe]]]].
    exists p, F. split; [|auto].
    exact (amap_unique inner amap h p Hinv Hcl Hall Hg Hp).
Qed.

(** When [calculate_nullables] reports an ambiguity. *)
Lemma calculate_nullables_from_ambiguity_iff :
  calculate_nullables_from P = RNullableAmbiguity <->
  exists q1 q2, In q1 P /\ In q2 P /\ pr_head q1 = pr_head q2
                /\ prodref_order q1 q2 <> Eq
                /\ prod_nullable_in P q1 /\ prod_nullable_in P q2.
Proof.
  destruct calculate_nullables_from_cases
    as [inner [Hin [Hinv [Hcl [[Hamb Hex]|[Hall [amap [Hg Hrun]]]]]]]].
  - split; [intros _|intros _; exact Hamb].
    destruct Hex as [[h info] [He Hlen]]. simpl in Hlen.
    pose proof (map_get_NoDup_In h info inner
                  (map_sorted_NoDup _ (inv_keys_sorted _ _ Hinv)) He) as Hi.
    pose proof (inv_sorted _ _ Hinv h info Hi) as Hs.
    destruct (nullable_actions info) as [|y1 [|y2 rest]] eqn:Ha; simpl in Hlen; [lia|lia|].
    apply StronglySorted_inv in Hs as [_ Hf]. inversion Hf as [|? ? Hlt]; subst.
    destruct (inv_members _ _ Hinv h info y1 Hi ltac:(rewrite Ha; now left))
      as [H1 [Hh1 Hn1]].
    destruct (inv_members _ _ Hinv h info y2 Hi ltac:(rewrite Ha; right; now left))
      as [H2 [Hh2 Hn2]].
    exists y1, y2. repeat split; auto; [congruence|].
    now apply prodref_lt_not_Eq.
  - rewrite Hrun. split; [intros H; exfalso; exact (pass2_loop_not_ambiguous _ _ _ _ H)|].
    intros [q1 [q2 [H1 [H2 [Hh [Hne [Hn1 Hn2]]]]]]]. exfalso. apply Hne.
    pose proof (closed_recorded P inner q1 Hcl H1 Hn1) as R1.
    pose proof (closed_recorded P inner q2 Hcl H2 Hn2) as R2.
    apply recordedb_spec in R1 as [i1 [y1 [Hi1 [Hy1 Ho1]]]].
    apply recordedb_spec in R2 as [i2 [y2 [Hi2 [Hy2 Ho2]]]].
    rewrite <- Hh, Hi1 in Hi2. inversion Hi2; subst i2.
    destruct (singleton_lookup inner _ i1 Hall Hi1) as [p Hp]. rewrite Hp in Hy1, Hy2.
    destruct Hy1 as [<-|[]]. destruct Hy2 as [<-|[]].
    eapply prodref_order_Eq_trans; [exact Ho1|]. now apply prodref_order_Eq_sym.
Qed.

Lemma forallb_false_exists {A : Type} (f : A -> bool) (l : list A) :
  forallb f l = false -> exists x, In x l /\ f x = false.
Proof.
  induction l as [|x l IH]; simpl; [discriminate|].
  destruct (f x) eqn:Hx; simpl; intros H.
  - destruct (IH H) as [y [Hy Hf]]. eauto.
  - eauto.
Qed.

(** The productions of [P] are told apart by the view order. *)
Definition ids_unique : Prop :=
  forall a b, In a P -> In b P -> prodref_order a b = Eq -> a = b.

Definition dep_ready (I : InfoMap) (pe : ProductionElement) : bool :=
  match pe with
  | mkProductionElement (Some _) (ENonTerm d) => map_contains d I
  | _ => true
  end.

Lemma engine_progress (inner : NullableMap) amap :
  ids_unique -> pass1_inv P inner -> closed P inner -> Forall singleton_entry inner ->
  (forall h, map_get h amap = match map_get h inner with
                              | Some info => hd_error (nullable_actions info)
                              | None => None
                              end) ->
  pass2_progress inner amap.
Proof.
  intros Hu Hinv Hcl Hall Hg I _ [h0 [Hc0 Hn0]].
  pose proof (inv_keys _ _ Hinv h0 Hc0) as Hnl. clear Hc0.
  induction Hnl as [pr HP Hel Hnt IH].
  assert (Hpn : prod_nullable_in P pr).
  { intros e He. destruct (Hel e He) as [nt ->]. exists nt. split; auto. }
  assert (Hc : map_contains (pr_head pr) inner = true).
  { apply (closed_complete P inner Hcl). now apply nullable_in_intro'. }
  pose proof Hc as Hc'. apply map_contains_get in Hc' as [info Hi].
  destruct (singleton_lookup inner _ info Hall Hi) as [p Hp].
  assert (Ha : map_get (pr_head pr) amap = Some p) by (rewrite Hg, Hi, Hp; reflexivity).
  destruct (amap_unique inner amap _ p Hinv Hcl Hall Hg Ha) as [HpP [_ [_ Huq]]].
  pose proof (Hu pr p HP HpP (Huq pr HP eq_refl Hpn)) as <-.
  destruct (forallb (dep_ready I) (elements (pr_prod pr))) eqn:E.
  - exists (pr_head pr), pr. repeat split; auto.
    intros id nt Hin. rewrite forallb_forall in E. exact (E _ Hin).
  - apply forallb_false_exists in E as [[[id|] [t|d]] [Hin Hf]]; simpl in Hf;
      try discriminate.
    apply (IH d); [|exact Hf].
    unfold elements_iter. change (ENonTerm d) with (element (mkProductionElement (Some id) (ENonTerm d))).
    now apply in_map.
Qed.

(** Under unique production ids both loops of [calculate_nullables] end:
    the result is an ambiguity error or a success. *)
Lemma calculate_nullables_from_total :
  ids_unique ->
  calculate_nullables_from P = RNullableAmbiguity
  \/ exists r, calculate_nullables_from P = ROk r.
Proof.
  intros Hu.
  destruct calculate_nullables_from_cases
    as [inner [Hin [Hinv [Hcl [[Hamb _]|[Hall [amap [Hg Hrun]]]]]]]]; [now left|].
  right. rewrite Hrun.
  assert (Htot : forall h, map_contains h inner = true ->
                           exists p, map_get h amap = Some p).
  { intros h Hc. apply map_contains_get in Hc as [info Hi].
    destruct (singleton_lookup inner h info Hall Hi) as [p Hp].
    exists p. rewrite Hg, Hi, Hp. reflexivity. }
  assert (Hti0 : tree_inv inner amap []).
  { constructor; simpl; [discriminate|discriminate]. }
  assert (Hrem0 : forall h, In h (remaining0 inner) <->
                  map_contains h inner = true /\ map_contains h (@nil (NonTerm * NonTermNullableInfo)) = false).
  { intros h. unfold remaining0. rewrite set_of_list_In, map_get_keys, <- map_contains_get.
    simpl. unfold map_contains. simpl. intuition. }
  apply (pass2_loop_terminates inner amap Htot); auto.
  - exact (engine_progress inner amap Hu Hinv Hcl Hall Hg).
  - apply set_of_list_NoDup.
Qed.

End Engine.

(* ------------------------------------------------------------------ *)
(** ** From production lists to grammars *)

Lemma in_combine_seq_nth {A : Type} (l : list A) (s i : nat) (x : A) :
  In (i, x) (combine (seq s (length l)) l) -> s <= i /\ nth_error l (i - s) = Some x.
Proof.
  revert s. induction l as [|y l IH]; simpl; intros s H; [contradiction|].
  destruct H as [H|H].
  - inversion H; subst. rewrite Nat.sub_diag. split; [lia|reflexivity].
  - destruct (IH (S s) H) as [Hle Hn]. split; [lia|].
    replace (i - s) with (S (i - S s)) by lia. exact Hn.
Qed.

Lemma nodup_fst_eq {V : Type} (m : list (nat * V)) (k : nat) (v v' : V) :
  NoDup (map fst m) -> In (k, v) m -> In (k, v') m -> v = v'.
Proof.
  intros Hnd H1 H2. pose proof (map_get_NoDup_In k v m Hnd H1).
  pose proof (map_get_NoDup_In k v' m Hnd H2). congruence.
Qed.

(** The views of a grammar are told apart by head and position. *)
Lemma prod_views_ids_unique (g : Grammar) :
  NoDup (map fst (rule_set g)) -> ids_unique (prod_views g).
Proof.
  intros Hnd a b Ha Hb Ho. apply prodref_order_Eq in Ho as [Hh Hp].
  unfold prod_views in Ha, Hb. rewrite in_flat_map in Ha, Hb.
  destruct Ha as [[h r] [Hr Ha]]. apply in_map_iff in Ha as [[i p] [<- Hip]].
  destruct Hb as [[h' r'] [Hr' Hb]]. apply in_map_iff in Hb as [[i' p'] [<- Hip']].
  simpl in Hh, Hp. subst h' i'.
  pose proof (nodup_fst_eq _ _ _ _ Hnd Hr Hr') as <-.
  apply in_combine_seq_nth in Hip as [_ Hn]. apply in_combine_seq_nth in Hip' as [_ Hn'].
  rewrite Hn in Hn'. inversion Hn'; subst p'. reflexivity.
Qed.

Lemma nullable_in_incl (P P' : list ProdRef) (nt : NonTerm) :
  (forall x, In x P -> In x P') -> nullable_in P nt -> nullable_in P' nt.
Proof.
  intros Hi H. induction H as [pr HP Hel Hnt IH].
  apply nullable_in_intro; auto.
Qed.

Lemma prod_derives_empty_nullable_in (g : Grammar) (pr : ProdRef) :
  prod_derives_empty g pr <-> prod_nullable_in (prod_views g) pr.
Proof.
  unfold prod_derives_empty, prod_nullable_in. split; intros H e He;
    destruct (H e He) as [nt [-> Hn]]; exists nt; split; auto;
    now apply derives_empty_nullable_in.
Qed.

(** Two production lists with the same members give the same outcome. *)
Lemma calculate_nullables_from_same_members (P P' : list ProdRef) :
  ids_unique P -> (forall x, In x P <-> In x P') ->
  (calculate_nullables_from P = RNullableAmbiguity
   /\ calculate_nullables_from P' = RNullableAmbiguity)
  \/ exists r r', calculate_nullables_from P = ROk r
                  /\ calculate_nullables_from P' = ROk r'
                  /\ forall h, map_get h r = map_get h r'.
Proof.
  intros Hu Hm.
  assert (Hu' : ids_unique P').
  { intros a b Ha Hb Ho. apply Hu; auto; now apply Hm. }
  assert (Hn : forall nt, nullable_in P nt <-> nullable_in P' nt).
  { intros nt. split; apply nullable_in_incl; intros x; apply Hm. }
  assert (Hpn : forall q, prod_nullable_in P q <-> prod_nullable_in P' q).
  { intros q. unfold prod_nullable_in. split; intros H e He;
      destruct (H e He) as [nt [-> Hx]]; exists nt; split; auto; now apply Hn. }
  assert (Hamb : calculate_nullables_from P = RNullableAmbiguity <->
                 calculate_nullables_from P' = RNullableAmbiguity).
  { rewrite !calculate_nullables_from_ambiguity_iff.
    split; intros [q1 [q2 [H1 [H2 [Hh [Hne [Hn1 Hn2]]]]]]]; exists q1, q2;
      repeat split; auto; try (now apply Hm); now apply Hpn. }
  destruct (calculate_nullables_from_total P Hu) as [HA|[r Hr]].
  - left. split; [exact HA|]. now apply Hamb.
  - destruct (calculate_nullables_from_total P' Hu') as [HA'|[r' Hr']].
    + apply Hamb in HA'. congruence.
    + right. exists r, r'. split; [exact Hr|]. split; [exact Hr'|].
      destruct (calculate_nullables_from_ok P r Hr) as [Hk Ht].
      destruct (calculate_nullables_from_ok P' r' Hr') as [Hk' Ht'].
      assert (G : forall h, nullable_in P h -> map_get h r = map_get h r').
      { intros h H. induction H as [pr HP Hel Hnt IH].
        assert (Hpr : prod_nullable_in P pr).
        { intros e He. destruct (Hel e He) as [nt ->]. exists nt. split; auto. }
        assert (HP' : In pr P') by now apply Hm.
        assert (Hc : nullable_in P (pr_head pr)) by now apply nullable_in_intro'.
        pose proof Hc as Hc'. apply Hk in Hc. apply Hn, Hk' in Hc'.
        apply map_contains_get in Hc as [T HT]. apply map_contains_get in Hc' as [T' HT'].
        rewrite HT, HT'.
        destruct (Ht _ _ HT) as [p [F [[HpP [_ [_ Huq]]] [HF ->]]]].
        destruct (Ht' _ _ HT') as [p' [F' [[HpP' [_ [_ Huq']]] [HF' ->]]]].
        pose proof (Hu pr p HP HpP (Huq pr HP eq_refl Hpr)) as <-.
        pose proof (Hu' pr p' HP' HpP' (Huq' pr HP' eq_refl (proj1 (Hpn pr) Hpr))) as <-.
        rewrite (build_fields_ext r r' _ []) in HF.
        - rewrite HF in HF'. inversion HF'; subst. reflexivity.
        - intros id nt Hin. apply IH. unfold elements_iter.
          change (ENonTerm nt) with (element (mkProductionElement (Some id) (ENonTerm nt))).
          now apply in_map. }
      intros h. destruct (map_contains h r) eqn:Hc.
      * apply G, Hk, Hc.
      * destruct (map_contains h r') eqn:Hc'.
        -- apply Hk', Hn, Hk in Hc'. congruence.
        -- unfold map_contains in Hc, Hc'.
           destruct (map_get h r), (map_get h r'); congruence.
Qed.

(** What [build_fields] leaves under each binding name. *)
Lemma build_fields_lookup (I : InfoMap) (elems : list ProductionElement) F F' :
  build_fields I elems F = Some F' ->
  forall n, map_get n F' = match last_binding n elems with
                           | Some nt => match map_get nt I with
                                        | Some s => Some (TVNode (nullable_action s))
                                        | None => None
                                        end
                           | None => map_get n F
                           end.
Proof.
  revert F. induction elems as [|pe elems IH]; simpl; intros F H n.
  - now inversion H.
  - destruct pe as [[id|] [t|nt]]; simpl in *.
    + rewrite (IH F H n). destruct (last_binding n elems); reflexivity.
    + destruct (map_get nt I) as [s|] eqn:Hs; [|discriminate].
      rewrite (IH _ H n). destruct (last_binding n elems); [reflexivity|].
      rewrite map_get_insert. destruct (Nat.eqb_spec n id); [|reflexivity].
      rewrite Hs. reflexivity.
    + rewrite (IH F H n). destruct (last_binding n elems); reflexivity.
    + rewrite (IH F H n). destruct (last_binding n elems); reflexivity.
Qed.

Lemma last_binding_In (n : Name) (elems : list ProductionElement) (nt : NonTerm) :
  last_binding n elems = Some nt ->
  In (mkProductionElement (Some n) (ENonTerm nt)) elems.
Proof.
  induction elems as [|pe elems IH]; simpl; [discriminate|].
  destruct (last_binding n elems) eqn:E.
  - intros H. right. apply IH. congruence.
  - destruct pe as [[id|] [t|nt']]; try discriminate.
    destruct (Nat.eqb_spec n id); [|discriminate]. intros H. inversion H; subst.
    now left.
Qed.

(** Every grammar [Grammar::new] builds keys its rules without repetition. *)
Lemma Grammar_new_keys (start : NonTerm) (rules : list Rule)
    (amap : list (ActionKey * ActionValue)) (g : Grammar) :
  Grammar_new start rules amap = inr g -> NoDup (map fst (rule_set g)).
Proof.
  unfold Grammar_new. destruct (check_grammar _); intros H; inversion H; subst; simpl.
  apply map_sorted_NoDup. clear H.
  assert (G : forall acc, map_sorted acc ->
              map_sorted (fold_left (fun m r => map_insert (head r) r m) rules acc)).
  { induction rules as [|r rules IH]; intros acc Hacc; simpl; [exact Hacc|].
    apply IH. now apply map_insert_sorted. }
  apply G. constructor.
Qed.

(** Views of one grammar are ordered by head and production address. *)
Lemma prodref_cmp_same_grammar (a b : ProdRef) :
  pr_grammar a = pr_grammar b -> prodref_cmp a b = Some (prodref_order a b).
Proof.
  intros Hg. unfold prodref_cmp, parent_ref_cmp, prodref_order, no_compare_cmp.
  rewrite Hg, Nat.eqb_refl.
  destruct (Nat.compare (pr_head a) (pr_head b)); [|reflexivity|reflexivity].
  destruct (Nat.compare (pr_ptr a) (pr_ptr b)); reflexivity.
Qed.

Lemma ex_NoDup_012 : NoDup [0; 1; 2].
Proof. repeat constructor; simpl; intuition lia. Qed.

Lemma option_all_views_None (am : list (ActionKey * ActionValue)) (gr hd s : nat)
    (ps : list Production) :
  option_all
    (map (fun '(i, p) =>
            match map_get (action_key p) am with
            | Some v => Some {| pr_grammar := gr; pr_head := hd; pr_ptr := i;
                               pr_prod := p; pr_action_value := Some v |}
            | None => None
            end)
       (combine (seq s (length ps)) ps)) = None <->
  exists p, In p ps /\ map_get (action_key p) am = None.
Proof.
  revert s. induction ps as [|p ps IH]; intros s; simpl.
  - split; [discriminate|intros [p [[] _]]].
  - destruct (map_get (action_key p) am) as [v|] eqn:E.
    + specialize (IH (S s)). destruct (option_all _) eqn:Eo.
      * split; [discriminate|]. intros [p' [[<-|Hp] Hn]]; [congruence|].
        assert (Hx : exists p0, In p0 ps /\ map_get (action_key p0) am = None) by eauto.
        apply IH in Hx. discriminate.
      * split; [|reflexivity]. intros _.
        destruct (proj1 IH eq_refl) as [p' [Hp Hn]]. eauto.
    + split; [intros _; exists p; auto|reflexivity].
Qed.

Lemma option_all_views_Some (am : list (ActionKey * ActionValue)) (gr hd s : nat)
    (ps : list Production) (l : list ProdRef) :
  option_all
    (map (fun '(i, p) =>
            match map_get (action_key p) am with
            | Some v => Some {| pr_grammar := gr; pr_head := hd; pr_ptr := i;
                               pr_prod := p; pr_action_value := Some v |}
            | None => None
            end)
       (combine (seq s (length ps)) ps)) = Some l ->
  map pr_prod l = ps
  /\ forall i pr, nth_error l i = Some pr ->
       pr_ptr pr = s + i /\ pr_head pr = hd /\ pr_grammar pr = gr
       /\ pr_action_value pr = map_get (action_key (pr_prod pr)) am
       /\ pr_action_value pr <> None.
Proof.
  revert s l. induction ps as [|p ps IH]; intros s l; simpl.
  - intros H. inversion H; subst. split; [reflexivity|]. intros [|i] pr Hn; discriminate.
  - destruct (map_get (action_key p) am) as [v|] eqn:E; [|discriminate].
    destruct (option_all _) as [xs|] eqn:Eo; [|discriminate].
    intros H. inversion H; subst l. destruct (IH (S s) xs Eo) as [Hm Hn].
    split; [simpl; now rewrite Hm|].
    intros [|i] pr Hi; simpl in Hi.
    + inversion Hi; subst pr. simpl. rewrite E. repeat split; [lia|discriminate].
    + destruct (Hn i pr Hi) as [Hp Hrest]. split; [lia|exact Hrest].
Qed.

Lemma option_all_views_eq (am : list (ActionKey * ActionValue)) (gr hd s : nat)
    (ps : list Production) (l : list ProdRef) :
  option_all
    (map (fun '(i, p) =>
            match map_get (action_key p) am with
            | Some v => Some {| pr_grammar := gr; pr_head := hd; pr_ptr := i;
                               pr_prod := p; pr_action_value := Some v |}
            | None => None
            end)
       (combine (seq s (length ps)) ps)) = Some l ->
  l = map (fun '(i, p) =>
             {| pr_grammar := gr; pr_head := hd; pr_ptr := i; pr_prod := p;
                pr_action_value := map_get (action_key p) am |})
          (combine (seq s (length ps)) ps).
Proof.
  revert s l. induction ps as [|p ps IH]; intros s l; simpl.
  - intros H. inversion H; reflexivity.
  - destruct (map_get (action_key p) am) as [v|] eqn:E; [|discriminate].
    destruct (option_all _) as [xs|] eqn:Eo; [|discriminate].
    intros H. inversion H; subst l. f_equal. exact (IH (S s) xs Eo).
Qed.

(** What [Grammar::prods] returns when no lookup fails. *)
Lemma grammar_prods_Some (g : Grammar) (P : list ProdRef) :
  grammar_prods g = Some P -> P = prod_views g.
Proof.
  unfold grammar_prods, prod_views, RuleRef_prods. simpl. revert P.
  induction (rule_set g) as [|[h r] rs IH]; simpl; intros P0 H.
  - inversion H; reflexivity.
  - destruct (option_all (map _ (combine (seq 0 (length (prods r))) (prods r))))
      as [l|] eqn:E1; [|discriminate].
    destruct (option_all (map _ rs)) as [vs|] eqn:E2; [|discriminate].
    inversion H; subst P0. simpl. rewrite (IH (concat vs) eq_refl). f_equal.
    exact (option_all_views_eq _ _ _ _ _ _ E1).
Qed.

(** [Grammar::prods] panics exactly when some production's action key is
    missing from the action map. *)
Lemma grammar_prods_None (g : Grammar) :
  grammar_prods g = None <->
  exists h r p, In (h, r) (rule_set g) /\ In p (prods r)
                /\ map_get (action_key p) (action_map g) = None.
Proof.
  unfold grammar_prods, RuleRef_prods. simpl.
  assert (G : forall rs,
    option_all (map (fun '(h, r) =>
      option_all
        (map (fun '(i, p) =>
                match map_get (action_key p) (action_map g) with
                | Some v => Some {| pr_grammar := 0; pr_head := h; pr_ptr := i;
                                   pr_prod := p; pr_action_value := Some v |}
                | None => None
                end)
           (combine (seq 0 (length (prods r))) (prods r)))) rs) = None <->
    exists h r p, In (h, r) rs /\ In p (prods r)
                  /\ map_get (action_key p) (action_map g) = None).
  { induction rs as [|[h r] rs IH]; simpl.
    - split; [discriminate|]. intros [h [r [p [[] _]]]].
    - destruct (option_all (map _ (combine (seq 0 (length (prods r))) (prods r))))
        as [l|] eqn:E1.
      + destruct (option_all (map _ rs)) as [vs|] eqn:E2.
        * split; [discriminate|]. intros [h' [r' [p [[Heq|Hin] [Hp Hn]]]]].
          -- inversion Heq; subst h' r'.
             assert (Hx : exists p0, In p0 (prods r)
                                     /\ map_get (action_key p0) (action_map g) = None)
               by eauto.
             apply (option_all_views_None (action_map g) 0 h 0 (prods r)) in Hx.
             congruence.
          -- assert (Hx : exists h0 r0 p0, In (h0, r0) rs /\ In p0 (prods r0)
                                           /\ map_get (action_key p0) (action_map g) = None)
               by eauto 7.
             apply IH in Hx. congruence.
        * split; [intros _|reflexivity]. destruct (proj1 IH eq_refl) as [h' [r' [p Hx]]].
          exists h', r', p. tauto.
      + split; [intros _|reflexivity].
        apply (option_all_views_None (action_map g) 0 h 0 (prods r)) in E1
          as [p [Hp Hn]].
        exists h, r, p. auto. }
  rewrite <- G. destruct (option_all _); split; congruence.
Qed.

Lemma calculate_nullables_ROk (g : Grammar) (r : InfoMap) :
  calculate_nullables g = ROk r ->
  grammar_prods g = Some (prod_views g) /\ calculate_nullables_from (prod_views g) = ROk r.
Proof.
  unfold calculate_nullables. destruct (grammar_prods g) as [P|] eqn:HP; [|discriminate].
  intros Hr. pose proof (grammar_prods_Some g P HP) as ->. auto.
Qed.

(* ================================================================== *)
(** * The claims *)

(** C1: the nullable computation marks a nonterminal exactly when one of
    its productions has only right-hand-side elements that are nullable
    nonterminals (least fixpoint, [derives_empty]): once the views of the
    grammar are created ([Grammar::prods] does not panic), pass 1 ends with
    that key set, and every successful result of [calculate_nullables] has
    it. *)
Theorem C1_nullable_iff_derives_empty (g : Grammar) :
  (forall P, grammar_prods g = Some P ->
     exists nts, inner_calculate_nullables g = ROk nts
                 /\ forall nt, map_contains nt nts = true <-> derives_empty g nt)
  /\ forall r, calculate_nullables g = ROk r ->
               forall nt, map_contains nt r = true <-> derives_empty g nt.
Proof.
  split.
  - intros P HP. pose proof (grammar_prods_Some g P HP) as HPv. subst P.
    destruct (inner_calculate_nullables_from_spec (prod_views g))
      as [nts [Hin [Hinv Hcl]]].
    exists nts. split.
    + unfold inner_calculate_nullables. rewrite HP, Hin. reflexivity.
    + intros nt. rewrite derives_empty_nullable_in.
      split; [apply (inv_keys _ _ Hinv)|apply (closed_complete _ _ Hcl)].
  - intros r Hr nt. destruct (calculate_nullables_ROk g r Hr) as [_ Hr'].
    rewrite derives_empty_nullable_in.
    exact (proj1 (calculate_nullables_from_ok _ r Hr') nt).
Qed.

Lemma C1_nullable_iff_derives_empty_witness :
  (exists nts, inner_calculate_nullables ex_chain = ROk nts
               /\ forall nt, map_contains nt nts = true <-> derives_empty ex_chain nt)
  /\ calculate_nullables ex_chain = ROk ex_chain_info
  /\ (map_contains 0 ex_chain_info = true <-> derives_empty ex_chain 0).
Proof.
  assert (H : calculate_nullables ex_chain = ROk ex_chain_info)
    by (vm_compute; reflexivity).
  split.
  - apply (proj1 (C1_nullable_iff_derives_empty ex_chain) (prod_views ex_chain)).
    vm_compute. reflexivity.
  - split; [exact H|].
    exact (proj2 (C1_nullable_iff_derives_empty ex_chain) ex_chain_info H 0).
Defined.

(** C2: when two distinct views of productions of one nonterminal are each
    nullable (every element a nonterminal deriving the empty sequence),
    [calculate_nullables] returns the [NullableAmbiguity] error and no
    table. *)
Theorem C2_two_nullable_prods_ambiguity (g : Grammar) (P : list ProdRef) (q1 q2 : ProdRef) :
  NoDup (map fst (rule_set g)) -> grammar_prods g = Some P ->
  In q1 P -> In q2 P -> q1 <> q2 ->
  pr_head q1 = pr_head q2 ->
  prod_derives_empty g q1 -> prod_derives_empty g q2 ->
  calculate_nullables g = RNullableAmbiguity.
Proof.
  intros Hnd HP H1 H2 Hne Hh Hn1 Hn2.
  pose proof (grammar_prods_Some g P HP) as HPv. subst P.
  unfold calculate_nullables. rewrite HP.
  apply calculate_nullables_from_ambiguity_iff.
  exists q1, q2. repeat split; auto.
  - intros Ho. apply Hne. exact (prod_views_ids_unique g Hnd q1 q2 H1 H2 Ho).
  - now apply prod_derives_empty_nullable_in.
  - now apply prod_derives_empty_nullable_in.
Qed.

Lemma C2_two_nullable_prods_ambiguity_witness :
  calculate_nullables ex_ambiguous = RNullableAmbiguity.
Proof.
  apply (C2_two_nullable_prods_ambiguity ex_ambiguous (prod_views ex_ambiguous)
           {| pr_grammar := 0; pr_head := 0; pr_ptr := 0;
              pr_prod := mkProduction 10 []; pr_action_value := Some 1 |}
           {| pr_grammar := 0; pr_head := 0; pr_ptr := 1;
              pr_prod := mkProduction 11 []; pr_action_value := Some 2 |}).
  - vm_compute. constructor; [intros []|constructor].
  - vm_compute. reflexivity.
  - vm_compute. left. reflexivity.
  - vm_compute. right. left. reflexivity.
  - discriminate.
  - reflexivity.
  - intros e He. vm_compute in He. destruct He.
  - intros e He. vm_compute in He. destruct He.
Defined.

(** C3 (failing input): with rules [0 -> t1], [5 -> 9] and [6 -> ] and
    start [0] the grammar has five defects: [5], [6] and [9] are
    unreachable, [9] has no rule, [6] has no production.  [Grammar::new]
    reports three of them; the unreachable rule heads [5] and [6] are
    missing from the report. *)
Lemma C3_defects_partially_reported :
  Grammar_new 0 ex_defects_rules []
  = inl {| unreachable_nonterms_err := [9];
           nonterms_without_rules_err := [9];
           rules_without_prods_err := [6] |}
  /\ map_contains 5 (rule_set (grammar_of 0 ex_defects_rules [])) = true
  /\ map_contains 6 (rule_set (grammar_of 0 ex_defects_rules [])) = true
  /\ ~ reachable_from (grammar_of 0 ex_defects_rules []) 5
  /\ ~ reachable_from (grammar_of 0 ex_defects_rules []) 6.
Proof.
  assert (G : forall n, reachable_from (grammar_of 0 ex_defects_rules []) n -> n = 0).
  { intros n H. induction H as [|nt n r p Hr IH Hg Hp Hn]; [reflexivity|].
    subst nt. vm_compute in Hg. inversion Hg; subst r. simpl in Hp.
    destruct Hp as [<-|[]]. simpl in Hn. destruct Hn as [Hn|[]]. discriminate. }
  split; [vm_compute; reflexivity|]. split; [vm_compute; reflexivity|].
  split; [vm_compute; reflexivity|].
  split; intros H; apply G in H; discriminate.
Qed.

(** C4 (counterexample): with [0 -> x:1 x:2], [1 -> ()], [2 -> ()] (every
    action key in the action map) the binding name [x] is used by two
    nullable nonterminal elements; the
    witness tree of [0] has one child, the tree of [2], and the tree of
    [1] is not among its children. *)
Lemma C4_duplicate_binding_counterexample :
  Grammar_new 0 ex_dup_names_rules ex_dup_names_amap = inr ex_dup_names
  /\ calculate_nullables ex_dup_names = ROk ex_dup_names_info
  /\ exists T0 T1 T2,
       map_get 0 ex_dup_names_info = Some T0
       /\ map_get 1 ex_dup_names_info = Some T1
       /\ map_get 2 ex_dup_names_info = Some T2
       /\ tree_fields (nullable_action T0) = [(7, TVNode (nullable_action T2))]
       /\ ~ In (TVNode (nullable_action T1)) (map snd (tree_fields (nullable_action T0))).
Proof.
  split; [vm_compute; reflexivity|]. split; [vm_compute; reflexivity|].
  do 3 eexists. split; [cbv; reflexivity|]. split; [cbv; reflexivity|].
  split; [cbv; reflexivity|]. split; [cbv; reflexivity|].
  cbv. intros [H|[]]. discriminate.
Qed.

(** C4 (amended): the witness tree of a nullable nonterminal [h] has as
    node the [ProdKey] of the unique nullable production [p] of [h]; under
    each binding name [n] it holds the witness tree of the nonterminal of
    the LAST named nonterminal element of [p] bound to [n] (an earlier
    element with the same name is overwritten), and nothing under a name
    no named nonterminal element of [p] uses (unnamed elements and named
    terminals give no child). *)
Theorem C4_witness_tree_shape (g : Grammar) (r : InfoMap) (h : NonTerm)
    (T : NonTermNullableInfo) :
  calculate_nullables g = ROk r -> map_get h r = Some T ->
  exists P p, grammar_prods g = Some P /\ unique_nullable_prod P h p
    /\ tree_node (nullable_action T) = prod_key p
    /\ forall n, match last_binding n (elements (pr_prod p)) with
                 | Some nt => exists T', map_get nt r = Some T'
                              /\ map_get n (tree_fields (nullable_action T))
                                 = Some (TVNode (nullable_action T'))
                 | None => map_get n (tree_fields (nullable_action T)) = None
                 end.
Proof.
  intros Hr0 HT. destruct (calculate_nullables_ROk g r Hr0) as [HP Hr].
  destruct (calculate_nullables_from_ok _ r Hr) as [Hk Ht].
  destruct (Ht h T HT) as [p [F [Hup [HF ->]]]].
  exists (prod_views g), p. split; [exact HP|].
  split; [exact Hup|]. split; [reflexivity|]. intros n. simpl.
  rewrite (build_fields_lookup r _ [] F HF n).
  destruct (last_binding n (elements (pr_prod p))) as [nt|] eqn:E; [|reflexivity].
  assert (Hnt : nullable_in (prod_views g) nt).
  { destruct Hup as [_ [_ [Hpn _]]].
    assert (Hin : In (ENonTerm nt) (elements_iter (pr_prod p))).
    { unfold elements_iter.
      change (ENonTerm nt) with (element (mkProductionElement (Some n) (ENonTerm nt))).
      apply in_map. now apply last_binding_In. }
    destruct (Hpn _ Hin) as [nt' [Heq Hn]]. now inversion Heq; subst. }
  apply Hk, map_contains_get in Hnt as [T' HT']. rewrite HT'. eauto.
Qed.

Lemma C4_witness_tree_shape_witness :
  calculate_nullables ex_chain = ROk ex_chain_info
  /\ exists T, map_get 0 ex_chain_info = Some T
     /\ exists P p, grammar_prods ex_chain = Some P /\ unique_nullable_prod P 0 p
        /\ tree_node (nullable_action T) = prod_key p
        /\ forall n, match last_binding n (elements (pr_prod p)) with
                     | Some nt => exists T', map_get nt ex_chain_info = Some T'
                                  /\ map_get n (tree_fields (nullable_action T))
                                     = Some (TVNode (nullable_action T'))
                     | None => map_get n (tree_fields (nullable_action T)) = None
                     end.
Proof.
  assert (H : calculate_nullables ex_chain = ROk ex_chain_info)
    by (vm_compute; reflexivity).
  split; [exact H|].
  destruct (map_get 0 ex_chain_info) as [T|] eqn:E; [|vm_compute in E; discriminate].
  exists T. split; [reflexivity|].
  exact (C4_witness_tree_shape ex_chain ex_chain_info 0 T H E).
Defined.

(** C5 (failing input): with rules [0 -> t1] and [5 -> t1] and start [0],
    the nonterminal [5] is a rule head that is not reachable from the
    start symbol, yet [Grammar::new] succeeds, so no unreachable-nonterm
    error reports it. *)
Lemma C5_unreachable_head_unreported :
  Grammar_new 0 ex_unreached_head_rules [] = inr (grammar_of 0 ex_unreached_head_rules [])
  /\ map_contains 5 (rule_set (grammar_of 0 ex_unreached_head_rules [])) = true
  /\ ~ reachable_from (grammar_of 0 ex_unreached_head_rules []) 5.
Proof.
  assert (G : forall n, reachable_from (grammar_of 0 ex_unreached_head_rules []) n -> n = 0).
  { intros n H. induction H as [|nt n r p Hr IH Hg Hp Hn]; [reflexivity|].
    subst nt. vm_compute in Hg. inversion Hg; subst r. simpl in Hp.
    destruct Hp as [<-|[]]. simpl in Hn. destruct Hn as [Hn|[]]. discriminate. }
  split; [vm_compute; reflexivity|]. split; [vm_compute; reflexivity|].
  intros H. apply G in H. discriminate.
Qed.

(** C6: for a grammar whose rules have distinct heads (as the keys of a
    [BTreeMap] are), the nullable computation terminates: either creating
    the views panics at once, on a production whose action key is missing
    from the action map, or pass 1 reaches its fixpoint within one round per
    production plus one and pass 2 empties its remaining set within one
    round per nullable nonterminal plus one, so [calculate_nullables] ends
    in the ambiguity error or in a table.  It never exhausts a round
    bound. *)
Theorem C6_nullables_terminate (g : Grammar) :
  NoDup (map fst (rule_set g)) ->
  (grammar_prods g = None
   /\ inner_calculate_nullables g = RPanic /\ calculate_nullables g = RPanic
   /\ exists h r p, In (h, r) (rule_set g) /\ In p (prods r)
                    /\ map_get (action_key p) (action_map g) = None)
  \/ ((exists nts, inner_calculate_nullables g = ROk nts)
      /\ (calculate_nullables g = RNullableAmbiguity
          \/ exists r, calculate_nullables g = ROk r)).
Proof.
  intros Hnd. destruct (grammar_prods g) as [P|] eqn:HP.
  - right. pose proof (grammar_prods_Some g P HP) as HPv. subst P. split.
    + destruct (inner_calculate_nullables_from_spec (prod_views g)) as [nts [Hin _]].
      exists nts. unfold inner_calculate_nullables. rewrite HP, Hin. reflexivity.
    + unfold calculate_nullables. rewrite HP.
      exact (calculate_nullables_from_total _ (prod_views_ids_unique g Hnd)).
  - left. unfold inner_calculate_nullables, calculate_nullables. rewrite HP.
    split; [reflexivity|]. split; [reflexivity|]. split; [reflexivity|].
    now apply grammar_prods_None.
Qed.

Lemma C6_nullables_terminate_witness :
  (grammar_prods ex_chain = None
   /\ inner_calculate_nullables ex_chain = RPanic /\ calculate_nullables ex_chain = RPanic
   /\ exists h r p, In (h, r) (rule_set ex_chain) /\ In p (prods r)
                    /\ map_get (action_key p) (action_map ex_chain) = None)
  \/ ((exists nts, inner_calculate_nullables ex_chain = ROk nts)
      /\ (calculate_nullables ex_chain = RNullableAmbiguity
          \/ exists r, calculate_nullables ex_chain = ROk r)).
Proof.
  apply C6_nullables_terminate. vm_compute. exact ex_NoDup_012.
Defined.

(** C7: the result of the engine does not depend on the order in which
    the productions are enumerated: for the views [P] of the grammar and
    any reordering [P'] of them, both runs report the ambiguity, or both
    succeed with the same nullable set and the same witness tree (hence the
    same [ProdKey]) for every nonterminal.  Running it twice on one grammar
    is the case [P' = P]. *)
Theorem C7_enumeration_order_independent (g : Grammar) (P P' : list ProdRef) :
  NoDup (map fst (rule_set g)) -> grammar_prods g = Some P -> Permutation P P' ->
  (calculate_nullables g = RNullableAmbiguity
   /\ calculate_nullables_from P' = RNullableAmbiguity)
  \/ exists r r', calculate_nullables g = ROk r
                  /\ calculate_nullables_from P' = ROk r'
                  /\ forall h, map_get h r = map_get h r'.
Proof.
  intros Hnd HP Hp. pose proof (grammar_prods_Some g P HP) as HPv. subst P.
  unfold calculate_nullables. rewrite HP.
  apply calculate_nullables_from_same_members.
  - now apply prod_views_ids_unique.
  - intros x. split; apply Permutation_in; [exact Hp|now apply Permutation_sym].
Qed.

Lemma C7_enumeration_order_independent_witness :
  (calculate_nullables ex_chain = RNullableAmbiguity
   /\ calculate_nullables_from (rev (prod_views ex_chain)) = RNullableAmbiguity)
  \/ exists r r', calculate_nullables ex_chain = ROk r
                  /\ calculate_nullables_from (rev (prod_views ex_chain)) = ROk r'
                  /\ forall h, map_get h r = map_get h r'.
Proof.
  apply (C7_enumeration_order_independent ex_chain (prod_views ex_chain)).
  - vm_compute. exact ex_NoDup_012.
  - vm_compute. reflexivity.
  - apply Permutation_rev.
Defined.

(** C8: equality and ordering of production views never look at the
    action value: replacing the action values of both views changes
    neither result, and two views of the same grammar, head and
    production compare equal whatever their action values. *)
Theorem C8_action_value_ignored :
  (forall a b v w,
     prodref_eq (with_action_value a v) (with_action_value b w) = prodref_eq a b
     /\ prodref_cmp (with_action_value a v) (with_action_value b w) = prodref_cmp a b)
  /\ (forall a b, pr_grammar a = pr_grammar b -> pr_head a = pr_head b ->
                  pr_ptr a = pr_ptr b ->
                  prodref_eq a b = Some true /\ prodref_cmp a b = Some Eq).
Proof.
  split.
  - intros a b v w. split; reflexivity.
  - intros a b Hg Hh Hp.
    unfold prodref_eq, prodref_cmp, parent_ref_eq, parent_ref_cmp.
    rewrite Hg, Hh, Hp, !Nat.eqb_refl, !Nat.compare_refl. split; reflexivity.
Qed.

Lemma C8_action_value_ignored_witness :
  prodref_eq {| pr_grammar := 3; pr_head := 0; pr_ptr := 1;
                pr_prod := mkProduction 10 []; pr_action_value := Some 4 |}
             {| pr_grammar := 3; pr_head := 0; pr_ptr := 1;
                pr_prod := mkProduction 10 []; pr_action_value := None |} = Some true
  /\ prodref_cmp {| pr_grammar := 3; pr_head := 0; pr_ptr := 1;
                    pr_prod := mkProduction 10 []; pr_action_value := Some 4 |}
                 {| pr_grammar := 3; pr_head := 0; pr_ptr := 1;
                    pr_prod := mkProduction 10 []; pr_action_value := None |} = Some Eq.
Proof.
  apply (proj2 C8_action_value_ignored); reflexivity.
Defined.

(** C9: [Grammar::new] accepts two rules with head [0]; the grammar it
    builds keeps only the later rule, without any error. *)
Lemma C9_duplicate_head_later_rule_kept :
  Grammar_new 0 ex_dup_head_rules [] = inr (grammar_of 0 ex_dup_head_rules [])
  /\ rule_set (grammar_of 0 ex_dup_head_rules [])
     = [(0, mkRule 0 [mkProduction 11 [term_elem 2]])].
Proof. split; vm_compute; reflexivity. Qed.

(** C10: [Grammar::new] accepts a grammar whose action map has no entry
    for the action key [10] of its only production; [RuleRef::prods] on
    the rule of [0] then unwraps a missing entry and panics ([None]). *)
Lemma C10_missing_action_key_panics :
  Grammar_new 0 [mkRule 0 [mkProduction 10 [term_elem 1]]] []
  = inr (grammar_of 0 [mkRule 0 [mkProduction 10 [term_elem 1]]] [])
  /\ exists rr, rule_ref 0 (grammar_of 0 [mkRule 0 [mkProduction 10 [term_elem 1]]] []) 0
                = Some rr
     /\ RuleRef_prods (grammar_of 0 [mkRule 0 [mkProduction 10 [term_elem 1]]] []) rr
        = None.
Proof.
  split; [vm_compute; reflexivity|].
  eexists. split; [cbv; reflexivity|]. cbv. reflexivity.
Qed.

(* ================================================================== *)
(** * Further properties of the code *)

(* ------------------------------------------------------------------ *)
(** ** Validation in [Grammar::new] *)

Lemma set_of_list_sorted (l : list nat) : StronglySorted lt (set_of_list l).
Proof.
  assert (G : forall acc, StronglySorted lt acc ->
              StronglySorted lt (fold_left (fun s x => snd (set_insert x s)) l acc)).
  { induction l as [|x l IH]; intros acc Hacc; simpl; [exact Hacc|].
    apply IH. now apply set_insert_sorted. }
  apply G. constructor.
Qed.

Lemma nil_iff_no_member {A : Type} (l : list A) : l = [] <-> forall x, ~ In x l.
Proof.
  split; [intros -> x []|]. destruct l as [|a l]; [reflexivity|].
  intros H. exfalso. exact (H a (or_introl eq_refl)).
Qed.

Lemma get_nonterminals_In (g : Grammar) (nt : NonTerm) :
  In nt (get_nonterminals g) <-> occurs_in_rhs g nt.
Proof.
  unfold get_nonterminals, get_elements, occurs_in_rhs. rewrite in_flat_map. split.
  - intros [e [He Hnt]]. destruct e as [t|n]; simpl in Hnt; [contradiction|].
    destruct Hnt as [<-|[]]. apply in_flat_map in He as [[h r] [Hr He]].
    apply in_flat_map in He as [p [Hp He]]. exists h, r, p. auto.
  - intros [h [r [p [Hr [Hp He]]]]]. exists (ENonTerm nt). split; [|now left].
    apply in_flat_map. exists (h, r). split; [exact Hr|].
    apply in_flat_map. eauto.
Qed.

Lemma nonterminals_without_rules_In (g : Grammar) (nt : NonTerm) :
  In nt (nonterminals_without_rules g) <->
  occurs_in_rhs g nt /\ get_rule g nt = None.
Proof.
  unfold nonterminals_without_rules. rewrite set_of_list_In, filter_In,
    get_nonterminals_In, negb_true_iff. unfold map_contains, get_rule.
  destruct (map_get nt (rule_set g)); intuition discriminate.
Qed.

Lemma rules_without_prods_In (g : Grammar) (nt : NonTerm) :
  In nt (rules_without_prods g) <->
  exists k r, In (k, r) (rule_set g) /\ head r = nt /\ prods r = [].
Proof.
  unfold rules_without_prods. rewrite set_of_list_In, in_map_iff. split.
  - intros [[k r] [Hh Hin]]. apply filter_In in Hin as [Hin Hp].
    exists k, r. repeat split; auto. now destruct (prods r).
  - intros [k [r [Hin [Hh Hp]]]]. exists (k, r). split; [exact Hh|].
    apply filter_In. split; [exact Hin|]. now rewrite Hp.
Qed.

Lemma unreachable_nonterms_In (g : Grammar) (nt : NonTerm) :
  In nt (unreachable_nonterms g) <->
  occurs_in_rhs g nt /\ ~ In nt (reachable_nonterms g).
Proof.
  unfold unreachable_nonterms. rewrite set_of_list_In, filter_In,
    get_nonterminals_In, negb_true_iff.
  split; intros [H1 H2]; split; auto.
  - intros Hin. apply set_mem_In in Hin. congruence.
  - destruct (set_mem nt (reachable_nonterms g)) eqn:E; [|reflexivity].
    exfalso. apply H2. now apply set_mem_In.
Qed.

Lemma grammar_of_map (start : NonTerm) (rules : list Rule)
    (amap : list (ActionKey * ActionValue)) :
  map_sorted (rule_set (grammar_of start rules amap))
  /\ (forall h, get_rule (grammar_of start rules amap) h = last_rule_with_head h rules)
  /\ forall k r, In (k, r) (rule_set (grammar_of start rules amap)) -> k = head r.
Proof.
  unfold grammar_of, get_rule; simpl.
  assert (G : forall acc,
    map_sorted acc ->
    (forall k r, In (k, r) acc -> k = head r) ->
    map_sorted (fold_left (fun m r => map_insert (head r) r m) rules acc)
    /\ (forall h, map_get h (fold_left (fun m r => map_insert (head r) r m) rules acc)
                  = match last_rule_with_head h rules with
                    | Some r => Some r
                    | None => map_get h acc
                    end)
    /\ forall k r, In (k, r) (fold_left (fun m r => map_insert (head r) r m) rules acc)
                   -> k = head r).
  { induction rules as [|r rules IH]; intros acc Hs Hk; simpl; [auto|].
    destruct (IH (map_insert (head r) r acc)) as [Hs' [Hg' Hk']].
    - now apply map_insert_sorted.
    - intros k r' Hin. apply in_map_insert in Hin as [Heq|Hin].
      + inversion Heq; subst. reflexivity.
      + exact (Hk _ _ Hin).
    - split; [exact Hs'|]. split; [|exact Hk'].
      intros h. rewrite Hg'. destruct (last_rule_with_head h rules); [reflexivity|].
      rewrite map_get_insert.
      destruct (Nat.eqb_spec h (head r)), (Nat.eqb_spec (head r) h); congruence. }
  destruct (G [] (SSorted_nil _) (fun k r (H : In (k, r) []) => match H with end))
    as [Hs [Hg Hk]].
  split; [exact Hs|]. split; [|exact Hk].
  intros h. rewrite Hg. destruct (last_rule_with_head h rules); reflexivity.
Qed.

Lemma Grammar_new_unfold (start : NonTerm) (rules : list Rule)
    (amap : list (ActionKey * ActionValue)) :
  Grammar_new start rules amap
  = match check_grammar (grammar_of start rules amap) with
    | None => inr (grammar_of start rules amap)
    | Some e => inl e
    end.
Proof. reflexivity. Qed.

Lemma check_grammar_None (g : Grammar) :
  check_grammar g = None <->
  unreachable_nonterms g = [] /\ nonterminals_without_rules g = []
  /\ rules_without_prods g = [].
Proof.
  unfold check_grammar, into_result; simpl.
  destruct (unreachable_nonterms g), (nonterminals_without_rules g),
    (rules_without_prods g); intuition discriminate.
Qed.

Lemma check_grammar_Some (g : Grammar) (e : GrammarErrors) :
  check_grammar g = Some e ->
  e = {| unreachable_nonterms_err := unreachable_nonterms g;
         nonterms_without_rules_err := nonterminals_without_rules g;
         rules_without_prods_err := rules_without_prods g |}
  /\ (unreachable_nonterms g <> [] \/ nonterminals_without_rules g <> []
      \/ rules_without_prods g <> []).
Proof.
  unfold check_grammar, into_result; simpl.
  destruct (unreachable_nonterms g) eqn:E1, (nonterminals_without_rules g) eqn:E2,
    (rules_without_prods g) eqn:E3; intros H; inversion H; subst;
    (split; [reflexivity|]); intuition discriminate.
Qed.

Lemma grammar_of_rule_In (start : NonTerm) (rules : list Rule)
    (amap : list (ActionKey * ActionValue)) (nt : NonTerm) (r : Rule) :
  get_rule (grammar_of start rules amap) nt = Some r <->
  exists k, In (k, r) (rule_set (grammar_of start rules amap)) /\ head r = nt.
Proof.
  destruct (grammar_of_map start rules amap) as [Hs [_ Hk]]. split.
  - intros H. apply map_get_In in H. exists nt. split; [exact H|].
    symmetry. exact (Hk _ _ H).
  - intros [k [Hin Hh]]. pose proof (Hk _ _ Hin). subst.
    exact (map_get_NoDup_In _ _ _ (map_sorted_NoDup _ Hs) Hin).
Qed.

(** [Grammar::new] accepts its input exactly when every nonterminal
    written on a right-hand side has a rule and is reached from the start
    symbol, and every rule has at least one production. *)
Theorem Grammar_new_accepts_iff (start : NonTerm) (rules : list Rule)
    (amap : list (ActionKey * ActionValue)) :
  (exists g, Grammar_new start rules amap = inr g) <->
  (forall nt, occurs_in_rhs (grammar_of start rules amap) nt ->
              get_rule (grammar_of start rules amap) nt <> None
              /\ In nt (reachable_nonterms (grammar_of start rules amap)))
  /\ (forall nt r, get_rule (grammar_of start rules amap) nt = Some r -> prods r <> []).
Proof.
  rewrite Grammar_new_unfold.
  set (G := grammar_of start rules amap).
  assert (Hiff : check_grammar G = None <->
     (forall nt, occurs_in_rhs G nt -> get_rule G nt <> None /\ In nt (reachable_nonterms G))
     /\ (forall nt r, get_rule G nt = Some r -> prods r <> [])).
  { rewrite check_grammar_None, !nil_iff_no_member. split.
    - intros [H1 [H2 H3]]. split.
      + intros nt Hnt. split.
        * intros Hr. apply (H2 nt). now apply nonterminals_without_rules_In.
        * destruct (in_dec Nat.eq_dec nt (reachable_nonterms G)) as [Hin|Hin];
            [exact Hin|].
          exfalso. apply (H1 nt). now apply unreachable_nonterms_In.
      + intros nt r Hr Hp. apply (H3 nt). apply rules_without_prods_In.
        apply grammar_of_rule_In in Hr as [k [Hin Hh]]. eauto.
    - intros [Hnt Hp]. split; [|split].
      + intros nt Hin. apply unreachable_nonterms_In in Hin as [Ho Hr].
        exact (Hr (proj2 (Hnt nt Ho))).
      + intros nt Hin. apply nonterminals_without_rules_In in Hin as [Ho Hr].
        exact (proj1 (Hnt nt Ho) Hr).
      + intros nt Hin. apply rules_without_prods_In in Hin as [k [r [Hin [Hh Hr]]]].
        apply (Hp nt r); [|exact Hr]. apply grammar_of_rule_In. eauto. }
  rewrite <- Hiff. destruct (check_grammar G) as [e|].
  - split; [intros [g0 Hg0]; discriminate|intros H; discriminate].
  - split; [reflexivity|eauto].
Qed.

(** When [Grammar::new] rejects its input, the three error sets are sorted
    without repetition, at least one is non-empty, and they hold exactly:
    the right-hand-side nonterminals not reached from the start symbol,
    the right-hand-side nonterminals without a rule, and the heads of the
    rules without productions. *)
Theorem Grammar_new_errors_exact (start : NonTerm) (rules : list Rule)
    (amap : list (ActionKey * ActionValue)) (e : GrammarErrors) :
  Grammar_new start rules amap = inl e ->
  (forall nt, In nt (unreachable_nonterms_err e) <->
              occurs_in_rhs (grammar_of start rules amap) nt
              /\ ~ In nt (reachable_nonterms (grammar_of start rules amap)))
  /\ (forall nt, In nt (nonterms_without_rules_err e) <->
                 occurs_in_rhs (grammar_of start rules amap) nt
                 /\ get_rule (grammar_of start rules amap) nt = None)
  /\ (forall nt, In nt (rules_without_prods_err e) <->
                 exists r, get_rule (grammar_of start rules amap) nt = Some r /\ prods r = [])
  /\ StronglySorted lt (unreachable_nonterms_err e)
  /\ StronglySorted lt (nonterms_without_rules_err e)
  /\ StronglySorted lt (rules_without_prods_err e)
  /\ (unreachable_nonterms_err e <> [] \/ nonterms_without_rules_err e <> []
      \/ rules_without_prods_err e <> []).
Proof.
  rewrite Grammar_new_unfold.
  destruct (check_grammar (grammar_of start rules amap)) as [e'|] eqn:E;
    intros H; inversion H; subst e'.
  apply check_grammar_Some in E as [-> Hne]. simpl.
  split; [apply unreachable_nonterms_In|].
  split; [apply nonterminals_without_rules_In|].
  split.
  { intros nt. rewrite rules_without_prods_In. split.
    - intros [k [r [Hin [Hh Hp]]]]. exists r. split; [|exact Hp].
      apply grammar_of_rule_In. eauto.
    - intros [r [Hr Hp]]. apply grammar_of_rule_In in Hr as [k [Hin Hh]]. eauto. }
  split; [apply set_of_list_sorted|]. split; [apply set_of_list_sorted|].
  split; [apply set_of_list_sorted|]. exact Hne.
Qed.

Lemma Grammar_new_errors_exact_witness :
  In 6 (rules_without_prods_err
          {| unreachable_nonterms_err := [9]; nonterms_without_rules_err := [9];
             rules_without_prods_err := [6] |})
  <-> exists r, get_rule (grammar_of 0 ex_defects_rules []) 6 = Some r /\ prods r = [].
Proof.
  exact (proj1 (proj2 (proj2 (Grammar_new_errors_exact 0 ex_defects_rules []
    {| unreachable_nonterms_err := [9]; nonterms_without_rules_err := [9];
       rules_without_prods_err := [6] |} ltac:(vm_compute; reflexivity)))) 6).
Defined.

(** The grammar [Grammar::new] returns keeps its rules sorted by head, and
    the rule of a head is the last rule of the input with that head. *)
Theorem Grammar_new_rule_lookup (start : NonTerm) (rules : list Rule)
    (amap : list (ActionKey * ActionValue)) (g : Grammar) :
  Grammar_new start rules amap = inr g ->
  start_symbol g = start /\ action_map g = amap /\ map_sorted (rule_set g)
  /\ forall h, get_rule g h = last_rule_with_head h rules.
Proof.
  rewrite Grammar_new_unfold. destruct (check_grammar _); intros H; inversion H; subst.
  destruct (grammar_of_map start rules amap) as [Hs [Hg _]].
  split; [reflexivity|]. split; [reflexivity|]. split; [exact Hs|exact Hg].
Qed.

Lemma Grammar_new_rule_lookup_witness :
  start_symbol (grammar_of 0 ex_dup_head_rules []) = 0
  /\ action_map (grammar_of 0 ex_dup_head_rules []) = []
  /\ map_sorted (rule_set (grammar_of 0 ex_dup_head_rules []))
  /\ forall h, get_rule (grammar_of 0 ex_dup_head_rules []) h
               = last_rule_with_head h ex_dup_head_rules.
Proof.
  apply (Grammar_new_rule_lookup 0 ex_dup_head_rules []). vm_compute. reflexivity.
Defined.

(* ------------------------------------------------------------------ *)
(** ** [RuleRef::prods] *)



(** [RuleRef::prods] panics exactly when the action map lacks the action
    key of one of the rule's productions. *)
Theorem RuleRef_prods_panics_iff (g : Grammar) (rr : RuleRef) :
  RuleRef_prods g rr = None <->
  exists p, In p (rr_prods rr) /\ map_get (action_key p) (action_map g) = None.
Proof. apply option_all_views_None. Qed.

(** When [RuleRef::prods] returns, it gives one view per production, in
    order: the [i]-th view has production [i] at address [i], the rule's
    head and grammar, and the action value of its action key; the views
    are strictly increasing in the order of [ProdRef]. *)
Theorem RuleRef_prods_views (g : Grammar) (rr : RuleRef) (l : list ProdRef) :
  RuleRef_prods g rr = Some l ->
  map pr_prod l = rr_prods rr
  /\ (forall i pr, nth_error l i = Some pr ->
        pr_ptr pr = i /\ pr_head pr = rr_head rr /\ pr_grammar pr = rr_grammar rr
        /\ pr_action_value pr = map_get (action_key (pr_prod pr)) (action_map g))
  /\ (forall i j a b, i < j -> nth_error l i = Some a -> nth_error l j = Some b ->
        prodref_cmp a b = Some Lt).
Proof.
  intros H. destruct (option_all_views_Some _ _ _ 0 _ _ H) as [Hm Hn].
  split; [exact Hm|]. split.
  - intros i pr Hi. destruct (Hn i pr Hi) as [Hp [Hh [Hg [Hv _]]]]. auto.
  - intros i j a b Hij Ha Hb.
    destruct (Hn i a Ha) as [Hpa [Hha [Hga _]]].
    destruct (Hn j b Hb) as [Hpb [Hhb [Hgb _]]].
    rewrite prodref_cmp_same_grammar by congruence. unfold prodref_order.
    rewrite Hha, Hhb, Nat.compare_refl, Hpa, Hpb. simpl.
    f_equal. now apply Nat.compare_lt_iff.
Qed.

Lemma RuleRef_prods_views_witness :
  RuleRef_prods ex_three_prods ex_three_prods_rr = Some ex_three_prods_views
  /\ map pr_prod ex_three_prods_views = rr_prods ex_three_prods_rr
  /\ (forall i pr, nth_error ex_three_prods_views i = Some pr ->
        pr_ptr pr = i /\ pr_head pr = rr_head ex_three_prods_rr
        /\ pr_grammar pr = rr_grammar ex_three_prods_rr
        /\ pr_action_value pr = map_get (action_key (pr_prod pr))
                                  (action_map ex_three_prods))
  /\ (forall i j a b, i < j ->
        nth_error ex_three_prods_views i = Some a ->
        nth_error ex_three_prods_views j = Some b ->
        prodref_cmp a b = Some Lt).
Proof.
  assert (H : RuleRef_prods ex_three_prods ex_three_prods_rr = Some ex_three_prods_views)
    by (vm_compute; reflexivity).
  split; [exact H|].
  exact (RuleRef_prods_views ex_three_prods ex_three_prods_rr ex_three_prods_views H).
Defined.

(* ------------------------------------------------------------------ *)
(** ** [ProdRef] equality and order *)

Lemma prodref_compare_None (a b : ProdRef) :
  (prodref_eq a b = None <-> pr_grammar a <> pr_grammar b)
  /\ (prodref_cmp a b = None <-> pr_grammar a <> pr_grammar b).
Proof.
  unfold prodref_eq, prodref_cmp, parent_ref_eq, parent_ref_cmp.
  destruct (Nat.eqb_spec (pr_grammar a) (pr_grammar b)); split; split;
    intros H; try discriminate; try contradiction; auto.
Qed.


(** The derived [Eq] and [Ord] of [ProdRef] agree, the order is
    antisymmetric and transitive: a lawful total order on the views of one
    grammar. *)
Theorem prodref_ord_laws :
  (forall a b, prodref_eq a b = Some true <-> prodref_cmp a b = Some Eq)
  /\ (forall a b, prodref_cmp b a = option_map CompOpp (prodref_cmp a b))
  /\ (forall a b c, prodref_cmp a b = Some Lt -> prodref_cmp b c = Some Lt ->
                    prodref_cmp a c = Some Lt).
Proof.
  assert (Gr : forall a b c, prodref_cmp a b = Some c -> pr_grammar a = pr_grammar b).
  { intros a b c H. destruct (Nat.eq_dec (pr_grammar a) (pr_grammar b)) as [E|E];
      [exact E|]. apply (proj2 (prodref_compare_None a b)) in E. congruence. }
  split; [|split].
  - intros a b. destruct (Nat.eq_dec (pr_grammar a) (pr_grammar b)) as [E|E].
    + rewrite prodref_cmp_same_grammar by exact E.
      unfold prodref_eq, parent_ref_eq, no_compare_eq. rewrite E, Nat.eqb_refl.
      rewrite andb_true_r. unfold prodref_order.
      destruct (Nat.compare_spec (pr_head a) (pr_head b)),
        (Nat.compare_spec (pr_ptr a) (pr_ptr b)),
        (Nat.eqb_spec (pr_head a) (pr_head b)), (Nat.eqb_spec (pr_ptr a) (pr_ptr b));
        simpl; split; intros Hx; try discriminate; try reflexivity; lia.
    + pose proof E as E'. apply (proj1 (prodref_compare_None a b)) in E.
      apply (proj2 (prodref_compare_None a b)) in E'.
      rewrite E, E'. split; discriminate.
  - intros a b. destruct (Nat.eq_dec (pr_grammar a) (pr_grammar b)) as [E|E].
    + rewrite !prodref_cmp_same_grammar by congruence. simpl. f_equal.
      unfold prodref_order. rewrite (Nat.compare_antisym (pr_head a)),
        (Nat.compare_antisym (pr_ptr a)).
      destruct (Nat.compare (pr_head a) (pr_head b)); reflexivity.
    + pose proof E as E'. apply (proj2 (prodref_compare_None a b)) in E.
      assert (E2 : pr_grammar b <> pr_grammar a) by congruence.
      apply (proj2 (prodref_compare_None b a)) in E2. rewrite E, E2. reflexivity.
  - intros a b c Hab Hbc. pose proof (Gr _ _ _ Hab) as Eab. pose proof (Gr _ _ _ Hbc) as Ebc.
    rewrite prodref_cmp_same_grammar in * by congruence.
    injection Hab as Hab'. injection Hbc as Hbc'. f_equal.
    exact (prodref_lt_trans a b c Hab' Hbc').
Qed.

(* ------------------------------------------------------------------ *)
(** ** [Grammar::get_action_map] *)

From Stdlib Require ListDec.

Definition pk_sorted {V : Type} (m : list (ProdKey * V)) : Prop :=
  StronglySorted (fun x y => prodkey_cmp (fst x) (fst y) = Lt) m.

Lemma prodkey_cmp_Eq (a b : ProdKey) : prodkey_cmp a b = Eq <-> a = b.
Proof.
  destruct a as [h1 k1], b as [h2 k2]. unfold prodkey_cmp; simpl.
  destruct (Nat.compare_spec h1 h2) as [Eh|Eh|Eh].
  - subst. rewrite Nat.compare_eq_iff. split; intros Hx; [now subst|now inversion Hx].
  - split; intros Hx; [discriminate|inversion Hx; lia].
  - split; intros Hx; [discriminate|inversion Hx; lia].
Qed.

Lemma prodkey_cmp_antisym (a b : ProdKey) : prodkey_cmp b a = CompOpp (prodkey_cmp a b).
Proof.
  unfold prodkey_cmp. rewrite (Nat.compare_antisym (pk_head a)),
    (Nat.compare_antisym (pk_action_key a)).
  destruct (Nat.compare (pk_head a) (pk_head b)); reflexivity.
Qed.

Lemma prodkey_lt_trans (a b c : ProdKey) :
  prodkey_cmp a b = Lt -> prodkey_cmp b c = Lt -> prodkey_cmp a c = Lt.
Proof.
  unfold prodkey_cmp.
  destruct (Nat.compare_spec (pk_head a) (pk_head b)),
    (Nat.compare_spec (pk_head b) (pk_head c)); try discriminate; intros H1 H2.
  - rewrite Nat.compare_lt_iff in H1, H2.
    replace (pk_head a ?= pk_head c) with Eq by (symmetry; apply Nat.compare_eq_iff; lia).
    apply Nat.compare_lt_iff. lia.
  - replace (pk_head a ?= pk_head c) with Lt by (symmetry; apply Nat.compare_lt_iff; lia).
    reflexivity.
  - replace (pk_head a ?= pk_head c) with Lt by (symmetry; apply Nat.compare_lt_iff; lia).
    reflexivity.
  - replace (pk_head a ?= pk_head c) with Lt by (symmetry; apply Nat.compare_lt_iff; lia).
    reflexivity.
Qed.

Lemma pk_sorted_NoDup {V : Type} (m : list (ProdKey * V)) :
  pk_sorted m -> NoDup (map fst m).
Proof.
  unfold pk_sorted. induction m as [|[k v] m IH]; simpl; intros Hs; [constructor|].
  inversion Hs as [|x0 m0 Hs' Hall]; subst. constructor; [|now apply IH].
  intros Hin. apply in_map_iff in Hin as [[a b] [Ha Hab]]. simpl in Ha. subst.
  rewrite Forall_forall in Hall. specialize (Hall _ Hab). simpl in Hall.
  replace (prodkey_cmp k k) with Eq in Hall by (symmetry; now apply prodkey_cmp_Eq).
  discriminate.
Qed.

Lemma pk_map_get_notin {V : Type} (k : ProdKey) (m : list (ProdKey * V)) :
  ~ In k (map fst m) -> pk_map_get k m = None.
Proof.
  induction m as [|[k' v] m IH]; simpl; intros Hn; [reflexivity|].
  destruct (prodkey_cmp k k') eqn:E.
  - apply prodkey_cmp_Eq in E. subst. tauto.
  - apply IH. tauto.
  - apply IH. tauto.
Qed.

Lemma pk_entry_insert_None {V : Type} (k : ProdKey) (v : V) (m : list (ProdKey * V)) :
  pk_sorted m -> (pk_entry_insert_vacant k v m = None <-> In k (map fst m)).
Proof.
  unfold pk_sorted. induction m as [|[k' v'] m IH]; simpl; intros Hs.
  - split; [discriminate|intros []].
  - inversion Hs as [|x0 m0 Hs' Hall]; subst. rewrite Forall_forall in Hall.
    destruct (prodkey_cmp k k') eqn:E.
    + apply prodkey_cmp_Eq in E. subst. split; auto.
    + split; [discriminate|]. intros [Heq|Hin].
      * subst. replace (prodkey_cmp k k) with Eq in E by (symmetry; now apply prodkey_cmp_Eq).
        discriminate.
      * apply in_map_iff in Hin as [[a b] [Ha Hab]]. simpl in Ha. subst a.
        specialize (Hall _ Hab). simpl in Hall.
        pose proof (prodkey_lt_trans _ _ _ E Hall) as Hk.
        replace (prodkey_cmp k k) with Eq in Hk by (symmetry; now apply prodkey_cmp_Eq).
        discriminate.
    + specialize (IH Hs'). destruct (pk_entry_insert_vacant k v m) eqn:Ei.
      * split; [discriminate|]. intros [Heq|Hin].
        -- subst. replace (prodkey_cmp k k) with Eq in E by (symmetry; now apply prodkey_cmp_Eq).
           discriminate.
        -- apply IH in Hin. discriminate.
      * split; [intros _|reflexivity]. right. now apply IH.
Qed.

Lemma pk_entry_insert_Some {V : Type} (k : ProdKey) (v : V) (m m' : list (ProdKey * V)) :
  pk_sorted m -> pk_entry_insert_vacant k v m = Some m' ->
  pk_sorted m'
  /\ (forall x, In x (map fst m') <-> x = k \/ In x (map fst m))
  /\ (forall k2, pk_map_get k2 m' = match prodkey_cmp k2 k with
                                    | Eq => Some v
                                    | _ => pk_map_get k2 m
                                    end).
Proof.
  unfold pk_sorted. revert m'. induction m as [|[k' v'] m IH]; simpl; intros m' Hs Hi.
  - inversion Hi; subst. split; [repeat constructor|]. split.
    + simpl. intros x. split; intros [Hx|[]]; auto.
    + intros k2. simpl. destruct (prodkey_cmp k2 k); reflexivity.
  - inversion Hs as [|x0 m0 Hs' Hall]; subst. rewrite Forall_forall in Hall.
    destruct (prodkey_cmp k k') eqn:E; [discriminate| |].
    + inversion Hi; subst m'. split; [|split].
      * constructor; [exact Hs|]. constructor; [exact E|].
        rewrite Forall_forall. intros [a b] Hab. exact (prodkey_lt_trans _ _ _ E (Hall _ Hab)).
      * intros x. simpl. split; intros [Hx|Hx]; auto.
      * intros k2. simpl. destruct (prodkey_cmp k2 k); reflexivity.
    + destruct (pk_entry_insert_vacant k v m) as [m''|] eqn:Ei; [|discriminate].
      inversion Hi; subst m'. destruct (IH m'' Hs' eq_refl) as [Hs'' [Hk Hg]].
      split; [|split].
      * constructor; [exact Hs''|]. rewrite Forall_forall. intros [a b] Hab.
        assert (Ha : In a (map fst m'')) by (apply in_map_iff; exists (a, b); auto).
        apply Hk in Ha as [->|Ha].
        -- simpl. rewrite prodkey_cmp_antisym, E. reflexivity.
        -- apply in_map_iff in Ha as [[a' b'] [Ha' Hab']]. simpl in Ha'. subst a'.
           exact (Hall _ Hab').
      * intros x. simpl. rewrite Hk. tauto.
      * intros k2. simpl. rewrite Hg.
        destruct (prodkey_cmp k2 k) eqn:E2; [|reflexivity|reflexivity].
        apply prodkey_cmp_Eq in E2. subst.
        rewrite E. reflexivity.
Qed.

Definition prodkey_eq_dec (a b : ProdKey) : {a = b} + {a <> b}.
Proof. decide equality; apply Nat.eq_dec. Defined.

Definition action_map_step (acc : option (list (ProdKey * ProdAndHead))) (x : ProdAndHead)
    : option (list (ProdKey * ProdAndHead)) :=
  match acc with
  | None => None
  | Some map => pk_entry_insert_vacant (ProdAndHead_key x) x map
  end.

Lemma get_action_map_flat (g : Grammar) :
  get_action_map g = fold_left action_map_step (prod_and_heads g) (Some []).
Proof.
  unfold get_action_map, prod_and_heads. generalize (Some (@nil (ProdKey * ProdAndHead))).
  induction (rule_set g) as [|[h r] rs IH]; intros acc; simpl; [reflexivity|].
  rewrite fold_left_app, <- IH. f_equal.
  generalize acc. induction (prods r) as [|p ps IHp]; intros acc'; simpl; [reflexivity|].
  rewrite <- IHp. reflexivity.
Qed.

Lemma fold_action_map_None (l : list ProdAndHead) :
  fold_left action_map_step l None = None.
Proof. induction l; simpl; auto. Qed.

Lemma NoDup_app_iff' {A : Type} (l1 l2 : list A) :
  NoDup (l1 ++ l2) <-> NoDup l1 /\ NoDup l2 /\ forall a, In a l1 -> ~ In a l2.
Proof.
  split.
  - intros H. split; [exact (NoDup_app_remove_r _ _ H)|].
    split; [exact (NoDup_app_remove_l _ _ H)|].
    induction l1 as [|x l1 IH]; simpl; [tauto|].
    inversion H as [|x0 l0 Hn Hnd]; subst. intros a [<-|Ha] Hin.
    + apply Hn. apply in_or_app. now right.
    + exact (IH Hnd a Ha Hin).
  - intros [H1 [H2 H3]]. now apply NoDup_app.
Qed.

Lemma fold_action_map_spec (l : list ProdAndHead) (m0 : list (ProdKey * ProdAndHead)) :
  pk_sorted m0 ->
  (fold_left action_map_step l (Some m0) = None
   <-> ~ NoDup (map fst m0 ++ map ProdAndHead_key l))
  /\ forall m, fold_left action_map_step l (Some m0) = Some m ->
       pk_sorted m
       /\ forall k v, pk_map_get k m = Some v <->
                      pk_map_get k m0 = Some v \/ (In v l /\ ProdAndHead_key v = k).
Proof.
  revert m0. induction l as [|x l IH]; intros m0 Hs; simpl.
  - rewrite app_nil_r. split.
    + split; [discriminate|]. intros H. exfalso. exact (H (pk_sorted_NoDup _ Hs)).
    + intros m H. inversion H; subst. split; [exact Hs|]. intros k v. tauto.
  - destruct (pk_entry_insert_vacant (ProdAndHead_key x) x m0) as [m1|] eqn:Ei.
    + destruct (pk_entry_insert_Some _ _ _ _ Hs Ei) as [Hs1 [Hk1 Hg1]].
      assert (Hx : ~ In (ProdAndHead_key x) (map fst m0)).
      { intros Hin. apply (pk_entry_insert_None (ProdAndHead_key x) x m0 Hs) in Hin.
        congruence. }
      destruct (IH m1 Hs1) as [IHn IHs]. split.
      * rewrite IHn.
        assert (Hp : Permutation (map fst m1) (ProdAndHead_key x :: map fst m0)).
        { apply NoDup_Permutation.
          - exact (pk_sorted_NoDup _ Hs1).
          - constructor; [exact Hx|exact (pk_sorted_NoDup _ Hs)].
          - intros y. rewrite Hk1. simpl. split; intros [H|H]; auto. }
        assert (Hp' : Permutation (map fst m1 ++ map ProdAndHead_key l)
                        (map fst m0 ++ ProdAndHead_key x :: map ProdAndHead_key l)).
        { eapply Permutation_trans; [apply Permutation_app_tail; exact Hp|].
          simpl. apply Permutation_middle. }
        split; intros Hn Hnd; apply Hn.
        -- eapply Permutation_NoDup; [apply Permutation_sym; exact Hp'|exact Hnd].
        -- eapply Permutation_NoDup; [exact Hp'|exact Hnd].
      * intros m Hm. destruct (IHs m Hm) as [Hsm Hgm]. split; [exact Hsm|].
        intros k v. rewrite Hgm, Hg1.
        destruct (prodkey_cmp k (ProdAndHead_key x)) eqn:E.
        -- apply prodkey_cmp_Eq in E. subst k. rewrite (pk_map_get_notin _ _ Hx).
           split.
           ++ intros [Hy|[H1 H2]].
              ** injection Hy as <-. right. split; [left|]; reflexivity.
              ** right. split; [right|]; assumption.
           ++ intros [Hy|[[H1|H1] H2]]; [discriminate|subst; left; reflexivity|right; auto].
        -- split; [tauto|]. intros [Hy|[[<-|H1] H2]]; auto.
           subst k. replace (prodkey_cmp _ _) with Eq in E by (symmetry; now apply prodkey_cmp_Eq).
           discriminate.
        -- split; [tauto|]. intros [Hy|[[<-|H1] H2]]; auto.
           subst k. replace (prodkey_cmp _ _) with Eq in E by (symmetry; now apply prodkey_cmp_Eq).
           discriminate.
    + rewrite fold_action_map_None. split.
      * split; [intros _|reflexivity]. intros Hnd.
        apply (pk_entry_insert_None _ x _ Hs) in Ei.
        apply NoDup_app_iff' in Hnd as [_ [_ Hd]]. apply (Hd _ Ei). now left.
      * intros m H. discriminate.
Qed.

Lemma get_action_map_None_iff (g : Grammar) :
  get_action_map g = None <-> ~ NoDup (map ProdAndHead_key (prod_and_heads g)).
Proof.
  rewrite get_action_map_flat.
  exact (proj1 (fold_action_map_spec (prod_and_heads g) [] (SSorted_nil _))).
Qed.

(** [Grammar::get_action_map] panics exactly when two (head, production)
    pairs of the grammar share a [ProdKey]; otherwise looking a key up in
    the map it returns gives exactly the pair with that key. *)
Theorem get_action_map_spec (g : Grammar) :
  (get_action_map g = None <-> ~ NoDup (map ProdAndHead_key (prod_and_heads g)))
  /\ forall m, get_action_map g = Some m ->
       forall k v, pk_map_get k m = Some v <->
                   In v (prod_and_heads g) /\ ProdAndHead_key v = k.
Proof.
  rewrite get_action_map_flat.
  destruct (fold_action_map_spec (prod_and_heads g) [] (SSorted_nil _)) as [Hn Hs].
  split; [exact Hn|]. intros m Hm k v. destruct (Hs m Hm) as [_ Hg].
  rewrite Hg. simpl. split; [intros [H|H]; [discriminate|exact H]|auto].
Qed.

(** For a grammar with distinct rule heads, [Grammar::get_action_map]
    returns (does not panic) exactly when no rule has two productions with
    the same action key. *)
Theorem get_action_map_ok_iff (g : Grammar) :
  NoDup (map fst (rule_set g)) ->
  ((exists m, get_action_map g = Some m) <->
   forall h r, In (h, r) (rule_set g) -> NoDup (map action_key (prods r))).
Proof.
  intros Hnd.
  assert (Hiff : NoDup (map ProdAndHead_key (prod_and_heads g)) <->
                 forall h r, In (h, r) (rule_set g) -> NoDup (map action_key (prods r))).
  { unfold prod_and_heads. induction (rule_set g) as [|[h r] rs IH]; simpl in *.
    - split; [intros _ h r []|constructor].
    - inversion Hnd as [|x0 l0 Hh Hnd']; subst. specialize (IH Hnd').
      rewrite map_app, NoDup_app_iff', IH.
      assert (Hm : map ProdAndHead_key (map (fun prod => mkProdAndHead h prod) (prods r))
                   = map (fun k => {| pk_head := h; pk_action_key := k |})
                         (map action_key (prods r))).
      { rewrite !map_map. reflexivity. }
      assert (Hinj : NoDup (map ProdAndHead_key (map (fun prod => mkProdAndHead h prod) (prods r)))
                     <-> NoDup (map action_key (prods r))).
      { rewrite Hm. split; [apply NoDup_map_inv|].
        intros Hn. apply NoDup_map_NoDup_ForallPairs; [|exact Hn].
        intros x y _ _ Hxy. now inversion Hxy. }
      rewrite Hinj. split.
      + intros [H1 [H2 _]] h' r' [Heq|Hin]; [inversion Heq; subst; exact H1|exact (H2 _ _ Hin)].
      + intros H. split; [exact (H h r (or_introl eq_refl))|].
        split; [intros h' r' Hin; exact (H h' r' (or_intror Hin))|].
        intros a Ha Hb. rewrite Hm in Ha. apply in_map_iff in Ha as [k [<- _]].
        apply in_map_iff in Hb as [x [Hx Hxin]].
        apply in_flat_map in Hxin as [[h' r'] [Hr' Hx']].
        apply in_map_iff in Hx' as [p [<- _]].
        unfold ProdAndHead_key in Hx. simpl in Hx. inversion Hx; subst h'.
        apply Hh. apply in_map_iff. exists (h, r'). auto. }
  rewrite <- Hiff. pose proof (get_action_map_None_iff g) as Hn. split.
  - intros [m Hm]. destruct (ListDec.NoDup_dec prodkey_eq_dec
                        (map ProdAndHead_key (prod_and_heads g))) as [H|H]; [exact H|].
    apply Hn in H. congruence.
  - intros H. destruct (get_action_map g) as [m|] eqn:E; [eauto|].
    exact (False_ind _ (proj1 Hn eq_refl H)).
Qed.

Lemma get_action_map_ok_iff_witness :
  NoDup (map fst (rule_set ex_chain))
  /\ ((exists m, get_action_map ex_chain = Some m) <->
      forall h r, In (h, r) (rule_set ex_chain) -> NoDup (map action_key (prods r))).
Proof.
  split; [vm_compute; exact ex_NoDup_012|].
  apply get_action_map_ok_iff. vm_compute. exact ex_NoDup_012.
Defined.

(* ------------------------------------------------------------------ *)
(** ** Pass 1 of [calculate_nullables] and the [GrammarNullableInfo] queries *)

(** For a grammar with distinct rule heads whose views are created
    ([Grammar::prods] returns [P]), pass 1 ([inner_calculate_nullables])
    finishes with a key-sorted map whose evidence set for a head [h] is a
    sorted set holding exactly the views of [P] of head [h] whose elements
    are all nonterminals deriving the empty sequence. *)
Theorem inner_calculate_nullables_evidence (g : Grammar) (P : list ProdRef) :
  NoDup (map fst (rule_set g)) -> grammar_prods g = Some P ->
  exists nts, inner_calculate_nullables g = ROk nts
    /\ map_sorted nts
    /\ forall h info, map_get h nts = Some info ->
         prodset_sorted (nullable_actions info)
         /\ forall y, In y (nullable_actions info) <->
                      In y P /\ pr_head y = h /\ prod_derives_empty g y.
Proof.
  intros Hnd HP. pose proof (grammar_prods_Some g P HP) as HPv. subst P.
  destruct (inner_calculate_nullables_from_spec (prod_views g)) as [nts [Hs [Hinv Hcl]]].
  exists nts. split; [unfold inner_calculate_nullables; rewrite HP, Hs; reflexivity|].
  split; [exact (inv_keys_sorted _ _ Hinv)|].
  intros h info Hi. split; [exact (inv_sorted _ _ Hinv _ _ Hi)|]. intros y. split.
  - intros Hy. destruct (inv_members _ _ Hinv _ _ _ Hi Hy) as [HPy [Hh Hn]].
    split; [exact HPy|]. split; [exact Hh|]. now apply prod_derives_empty_nullable_in.
  - intros [HPy [Hh Hd]]. apply prod_derives_empty_nullable_in in Hd.
    pose proof (closed_recorded _ _ _ Hcl HPy Hd) as Hr.
    apply recordedb_spec in Hr as [info' [y' [Hi' [Hy' Ho]]]].
    rewrite Hh, Hi in Hi'. injection Hi' as <-.
    destruct (inv_members _ _ Hinv _ _ _ Hi Hy') as [HP' _].
    rewrite (prod_views_ids_unique g Hnd y y' HPy HP' Ho). exact Hy'.
Qed.

Lemma inner_calculate_nullables_evidence_witness :
  exists nts, inner_calculate_nullables ex_chain = ROk nts
    /\ map_sorted nts
    /\ forall h info, map_get h nts = Some info ->
         prodset_sorted (nullable_actions info)
         /\ forall y, In y (nullable_actions info) <->
                      In y (prod_views ex_chain) /\ pr_head y = h
                      /\ prod_derives_empty ex_chain y.
Proof.
  apply (inner_calculate_nullables_evidence ex_chain (prod_views ex_chain)).
  - vm_compute. exact ex_NoDup_012.
  - vm_compute. reflexivity.
Defined.

(** On a successful result of [calculate_nullables],
    [GrammarNullableInfo::is_prod_nullable] holds exactly for the
    productions whose elements are all nonterminals deriving the empty
    sequence, and [get_nullable_set] is a sorted set of exactly the
    nonterminals deriving the empty sequence. *)
Theorem GrammarNullableInfo_queries_ok (g : Grammar) (r : InfoMap) :
  calculate_nullables g = ROk r ->
  (forall pr, GrammarNullableInfo_is_prod_nullable r pr = true <-> prod_derives_empty g pr)
  /\ StronglySorted lt (GrammarNullableInfo_get_nullable_set r)
  /\ (forall nt, In nt (GrammarNullableInfo_get_nullable_set r) <-> derives_empty g nt).
Proof.
  intros Hr0. destruct (calculate_nullables_ROk g r Hr0) as [_ Hr].
  destruct (calculate_nullables_from_ok _ r Hr) as [Hk _].
  assert (Hc : forall nt, map_contains nt r = true <-> derives_empty g nt).
  { intros nt. rewrite Hk. symmetry. apply derives_empty_nullable_in. }
  split; [|split].
  - intros pr. unfold GrammarNullableInfo_is_prod_nullable.
    rewrite is_prod_nullable_spec. unfold prod_derives_empty.
    split; intros H e He; destruct (H e He) as [nt [-> Hn]]; exists nt;
      split; auto; apply Hc; exact Hn.
  - apply set_of_list_sorted.
  - intros nt. unfold GrammarNullableInfo_get_nullable_set.
    rewrite set_of_list_In, map_get_keys, <- map_contains_get. apply Hc.
Qed.

Lemma GrammarNullableInfo_queries_ok_witness :
  calculate_nullables ex_chain = ROk ex_chain_info
  /\ (forall pr, GrammarNullableInfo_is_prod_nullable ex_chain_info pr = true
                 <-> prod_derives_empty ex_chain pr)
  /\ StronglySorted lt (GrammarNullableInfo_get_nullable_set ex_chain_info)
  /\ (forall nt, In nt (GrammarNullableInfo_get_nullable_set ex_chain_info)
                 <-> derives_empty ex_chain nt).
Proof.
  split; [vm_compute; reflexivity|].
  apply GrammarNullableInfo_queries_ok. vm_compute. reflexivity.
Defined.



(* ------------------------------------------------------------------ *)
(** ** The panics of [calculate_nullables] *)

Lemma pass2_pass_no_panic (amap : list (NonTerm * ProdRef)) (rem : list NonTerm) (I : InfoMap) :
  (forall h, In h rem -> exists p, map_get h amap = Some p) ->
  pass2_pass amap rem I <> RPanic.
Proof.
  revert I. induction rem as [|h rest IH]; intros I Ht; simpl; [discriminate|].
  destruct (Ht h (or_introl eq_refl)) as [p Hp]. rewrite Hp.
  assert (Ht' : forall h', In h' rest -> exists p, map_get h' amap = Some p)
    by (intros h' Hh'; apply Ht; now right).
  destruct (build_fields _ _ _); apply IH; exact Ht'.
Qed.

Lemma pass2_loop_no_panic (fuel : nat) (amap : list (NonTerm * ProdRef))
    (rem : list NonTerm) (I : InfoMap) :
  (forall h, In h rem -> exists p, map_get h amap = Some p) ->
  pass2_loop fuel amap rem I <> RPanic.
Proof.
  revert rem I. induction fuel as [|fuel IH]; intros rem I Ht; simpl; [discriminate|].
  destruct (pass2_pass amap rem I) as [I'| | |] eqn:E; simpl; try discriminate.
  - destruct (remove_built I' rem) as [|x xs] eqn:Er; [discriminate|].
    apply IH. intros h Hh. apply Ht. rewrite <- Er, remove_built_filter in Hh.
    apply filter_In in Hh. exact (proj1 Hh).
  - exfalso. exact (pass2_pass_no_panic amap rem I Ht E).
Qed.

Lemma calculate_nullables_from_no_panic (P : list ProdRef) :
  calculate_nullables_from P <> RPanic.
Proof.
  destruct (calculate_nullables_from_cases P)
    as [inner [_ [_ [_ [[Hamb _]|[Hall [amap [Hg Hrun]]]]]]]].
  - rewrite Hamb. discriminate.
  - rewrite Hrun. apply pass2_loop_no_panic. intros h Hh.
    unfold remaining0 in Hh. rewrite set_of_list_In, map_get_keys in Hh.
    destruct Hh as [info Hi]. destruct (singleton_lookup inner h info Hall Hi) as [p Hp].
    exists p. rewrite Hg, Hi, Hp. reflexivity.
Qed.

(** [calculate_nullables] panics exactly when some production's action key
    is missing from the action map (creating its view unwraps a missing
    entry): the "unexpectedly empty nullable action" panic, the two
    assertions of [get_only] and the [unwrap] of the action-map lookup in
    pass 2 are never reached. *)
Theorem calculate_nullables_panics_iff (g : Grammar) :
  calculate_nullables g = RPanic <->
  exists h r p, In (h, r) (rule_set g) /\ In p (prods r)
                /\ map_get (action_key p) (action_map g) = None.
Proof.
  rewrite <- grammar_prods_None. unfold calculate_nullables.
  destruct (grammar_prods g) as [P|].
  - split; [|discriminate]. intros H. exfalso. exact (calculate_nullables_from_no_panic P H).
  - split; reflexivity.
Qed.

